(* ====================================================================== *)
(*  Stochastic rotation quantization (biased decoder) of a federated      *)
(*  client: a shallow embedding of                                        *)
(*    Flower/MNIST/Stochastic Rotation Quantization (biased)/client.py    *)
(*  and the properties of its codec.                                      *)
(*                                                                        *)
(*  Numbers: the tensors of the program hold float32 values; they are     *)
(*  modelled in exact arithmetic over an arbitrary real field F (the      *)
(*  rationals in the worked examples).  Rounding is not modelled.         *)
(*  Tensors: a 1-d tensor is the sequence of its elements, a 2-d tensor   *)
(*  the sequence of its rows.                                             *)
(*  Exceptions: a computation that can raise returns an [outcome].        *)
(*  Randomness: torch.bernoulli returns a finite distribution.            *)
(* ====================================================================== *)

From Stdlib Require Import String.
From HB Require Import structures.
From mathcomp Require Import boot order algebra.

Set Implicit Arguments.
Unset Strict Implicit.
Unset Printing Implicit Defensive.

Import Order.TTheory GRing.Theory Num.Theory.
Local Open Scope ring_scope.

(* ---------------------------------------------------------------------- *)
(*  Outcomes of Python code                                               *)
(* ---------------------------------------------------------------------- *)

(** An exception is identified by the name of its class. *)
Definition exn := string.

(** [Ok a]: normal return.  [Raise e]: an exception of class [e].
    [NaN]: no exception, but the float computation divided zero by zero,
    a value exact arithmetic does not have; nothing is claimed after it. *)
Inductive outcome (A : Type) : Type :=
  | Ok of A
  | Raise of exn
  | NaN.

Arguments Ok {A} _.
Arguments Raise {A} _.
Arguments NaN {A}.

Definition bind {A B : Type} (m : outcome A) (k : A -> outcome B) : outcome B :=
  match m with
  | Ok a => k a
  | Raise e => Raise e
  | NaN => NaN
  end.

Notation "m >>= k" := (bind m k) (at level 58, left associativity).

Definition RuntimeError : exn := "RuntimeError"%string.
Definition IndexError : exn := "IndexError"%string.
Definition LinAlgError : exn := "LinAlgError"%string.

(** Applies [f] to the elements from left to right, stopping at the first
    one that does not return normally. *)
Fixpoint mapM {A B : Type} (f : A -> outcome B) (s : seq A) : outcome (seq B) :=
  if s is x :: s' then
    f x >>= fun y => mapM f s' >>= fun ys => Ok (y :: ys)
  else Ok [::].

(* ---------------------------------------------------------------------- *)
(*  Finite distributions                                                  *)
(* ---------------------------------------------------------------------- *)

Section Dist.
Variable F : realFieldType.

(** A finite distribution: outcomes with their probabilities. *)
Definition dist (A : Type) := seq (A * F).

Definition dret {A : Type} (a : A) : dist A := [:: (a, 1)].

Definition dbind {A B : Type} (d : dist A) (k : A -> dist B) : dist B :=
  flatten [seq [seq (yw.1, xw.2 * yw.2) | yw <- k xw.1] | xw <- d].

(** Expectation of [f] under [d]. *)
Definition expect {A : Type} (f : A -> F) (d : dist A) : F :=
  foldr (fun xw acc => f xw.1 * xw.2 + acc) 0 d.

(** Total probability of [d]. *)
Definition mass {A : Type} (d : dist A) : F := expect (fun _ => 1) d.

(** Probability of the event [ev]. *)
Definition prob {A : Type} (ev : A -> bool) (d : dist A) : F :=
  expect (fun a => if ev a then 1 else 0) d.

(** One Bernoulli trial: 1 with probability [p], 0 with probability 1 - p. *)
Definition bernoulli (p : F) : dist F := [:: (1, p); (0, 1 - p)].

(** torch.bernoulli(probs): one independent trial per element. *)
Fixpoint torch_bernoulli (probs : seq F) : dist (seq F) :=
  if probs is p :: ps then
    dbind (bernoulli p) (fun x =>
    dbind (torch_bernoulli ps) (fun xs => dret (x :: xs)))
  else dret [::].

End Dist.

(* ---------------------------------------------------------------------- *)
(*  Tensor primitives                                                     *)
(* ---------------------------------------------------------------------- *)

Section Tensor.
Variable F : realFieldType.

(** torch.max(t), torch.min(t) over all elements; an empty tensor raises. *)
Definition torch_max (t : seq F) : outcome F :=
  if t is x :: t' then Ok (foldr Order.max x t') else Raise RuntimeError.

Definition torch_min (t : seq F) : outcome F :=
  if t is x :: t' then Ok (foldr Order.min x t') else Raise RuntimeError.

(** torch.arange(K) for K >= 0, as field elements. *)
Definition torch_arange (K : nat) : seq F := [seq i%:R | i <- iota 0 K].

(** torch.searchsorted(b, v, side='right'): the position i with
    b[i-1] <= v < b[i], that is the index of the first entry above v,
    or len(b) when there is none (as the binary search returns on the
    sorted sequences the encoder builds). *)
Definition searchsorted_right (b : seq F) (v : F) : nat :=
  find (fun x => v < x) b.

(** b[i] with Python's indexing: a negative index counts from the end and
    an index outside [-len(b), len(b)) raises IndexError. *)
Definition getitem (b : seq F) (i : int) : outcome F :=
  let n := (size b)%:Z in
  if (0 <= i) && (i < n) then Ok (nth 0 b `|i|)
  else if (- n <= i) && (i < 0) then Ok (nth 0 b `|i + n|)
  else Raise IndexError.

(** torch.where(c, x, y), elementwise on sequences of one length. *)
Fixpoint torch_where (c : seq bool) (x y : seq F) : seq F :=
  match c, x, y with
  | ci :: c', xi :: x', yi :: y' => (if ci then xi else yi) :: torch_where c' x' y'
  | _, _, _ => [::]
  end.

End Tensor.

(* ---------------------------------------------------------------------- *)
(*  encoder                                                               *)
(* ---------------------------------------------------------------------- *)

Section Encoder.
Variable F : realFieldType.

(** The number of quantization levels, a natural number.  The program fixes
    K = 64 in a module constant; the encoder is stated for any K. *)
Variable K : nat.

(** Lines 116-117: the quantization levels
      s = max(params) - min(params)
      b = min(params) + (s * arange(K)) / (K - 1).
    The division is by zero exactly when K = 1, where every level is 0/0. *)
Definition levels (params : seq F) : outcome (seq F) :=
  torch_max params >>= fun mx =>
  torch_min params >>= fun mn =>
  let s := mx - mn in
  if K == 1%N then NaN
  else Ok [seq mn + (s * i) / (K%:R - 1) | i <- torch_arange F K].

(** Line 120: ids = searchsorted(b, params, side='right') - 1. *)
Definition ids (b params : seq F) : seq int :=
  [seq (searchsorted_right b v)%:Z - 1 | v <- params].

(** Lines 123-131: pts = (ids, ids + 1) along a new last axis, then every
    entry equal to K is replaced by K - 1. *)
Definition clip (i : int) : int := if i == K%:Z then K%:Z - 1 else i.

Definition pts (is_ : seq int) : seq (int * int) :=
  [seq (clip r, clip (r + 1)) | r <- is_].

(** Line 134: brs = b[pts]. *)
Definition brs (b : seq F) (ps : seq (int * int)) : outcome (seq (F * F)) :=
  mapM (fun p => getitem b p.1 >>= fun lo =>
                 getitem b p.2 >>= fun hi => Ok (lo, hi)) ps.

(** Lines 138-139: probs = where(brs[..., 1] != brs[..., 0],
                                  (params - brs[..., 0]) / (brs[..., 1] - brs[..., 0]), 0). *)
Definition probs (params : seq F) (bs : seq (F * F)) : seq F :=
  torch_where [seq br.2 != br.1 | br <- bs]
              [seq (vb.1 - vb.2.1) / (vb.2.2 - vb.2.1) | vb <- zip params bs]
              [seq 0 | _ <- bs].

(** Line 142: torch.bernoulli raises when a probability is outside [0, 1]. *)
Definition encs (ps : seq F) : outcome (dist F (seq F)) :=
  if all (fun p => (0 <= p) && (p <= 1)) ps then Ok (torch_bernoulli ps)
  else Raise RuntimeError.

(** encoder(params).  [params] is the sequence of all elements of the tensor
    passed in, in row-major order: apart from the two reductions, which range
    over every element, each step is elementwise, so a 2-d tensor is encoded
    through its elements and the results take its shape.  Returns the random
    tensor encs and the tensor brs of pairs (B(r), B(r+1)). *)
Definition encoder (params : seq F) : outcome (dist F (seq F) * seq (F * F)) :=
  levels params >>= fun b =>
  brs b (pts (ids b params)) >>= fun bs =>
  encs (probs params bs) >>= fun es =>
  Ok (es, bs).

End Encoder.

(* ---------------------------------------------------------------------- *)
(*  Rotation: torch.matmul and torch.linalg.inv                           *)
(* ---------------------------------------------------------------------- *)

Section Rotation.
Variable F : realFieldType.

(** A 1-d tensor of length n as a column, and back. *)
Definition col_of_seq (n : nat) (x : seq F) : 'cV[F]_n :=
  \col_(i < n) nth 0 x i.

Definition seq_of_col (n : nat) (c : 'cV[F]_n) : seq F :=
  [seq c i ord0 | i <- enum 'I_n].

(** A 2-d tensor with m rows of length n as a matrix, and back. *)
Definition mx_of_rows (m n : nat) (X : seq (seq F)) : 'M[F]_(m, n) :=
  \matrix_(i < m, j < n) nth 0 (nth [::] X i) j.

Definition rows_of_mx (m n : nat) (A : 'M[F]_(m, n)) : seq (seq F) :=
  [seq [seq A i j | j <- enum 'I_n] | i <- enum 'I_m].

(** torch.matmul(R, x) for a 1-d x: raises unless len(x) is the size of R. *)
Definition matmul_vec (n : nat) (R : 'M[F]_n) (x : seq F) : outcome (seq F) :=
  if size x == n then Ok (seq_of_col (R *m col_of_seq n x))
  else Raise RuntimeError.

(** torch.matmul(R, X.T).T for a 2-d X with at least one row: raises unless
    the rows of X have the size of R. *)
Definition matmul_T (n : nat) (R : 'M[F]_n) (X : seq (seq F)) :
  outcome (seq (seq F)) :=
  if all (fun r => size r == n) X
  then Ok (rows_of_mx (R *m (mx_of_rows (size X) n X)^T)^T)
  else Raise RuntimeError.

(** torch.linalg.inv(R): raises on a singular matrix. *)
Definition linalg_inv (n : nat) (R : 'M[F]_n) : outcome 'M[F]_n :=
  if R \in unitmx then Ok (invmx R) else Raise LinAlgError.

End Rotation.

(* ---------------------------------------------------------------------- *)
(*  The model                                                             *)
(* ---------------------------------------------------------------------- *)


(* ---------------------------------------------------------------------- *)
(*  decoder and FlowerClient.get_parameters                               *)
(* ---------------------------------------------------------------------- *)

Section Client.
Variable F : realFieldType.
Variable K : nat.

(** The rotation matrices the program loads from rotmat2pow10.pt and
    rotmat2pow9.pt (not part of the sources). *)
Variable R1024 : 'M[F]_1024.
Variable R512 : 'M[F]_512.

(** Lines 158-162 and 167-171:
      where(encs == 1, (3*brs[..., 1] + brs[..., 0]) / 4,
                       (3*brs[..., 0] + brs[..., 1]) / 4). *)
Definition decode (encs : seq F) (bs : seq (F * F)) : seq F :=
  torch_where [seq e == 1 | e <- encs]
              [seq (3 * br.2 + br.1) / 4 | br <- bs]
              [seq (3 * br.1 + br.2) / 4 | br <- bs].

(** Lines 158-162: dec1024 after torch.where, the estimates of the stacked
    chunks of 1024. *)
Definition dec1024 (encs_brs_1024 : seq (seq F) * seq (seq (F * F))) :
  seq (seq F) :=
  [seq decode eb.1 eb.2 | eb <- zip encs_brs_1024.1 encs_brs_1024.2].

(** Lines 167-171: dec512 after torch.where, the estimates of the chunk of
    512. *)
Definition dec512 (encs_brs_512 : seq F * seq (F * F)) : seq F :=
  decode encs_brs_512.1 encs_brs_512.2.

(** Lines 179-185: the loop over model.parameters(); [numels] lists
    layer.numel() for each layer.  dec[ptr : ptr + size] is cut short at the
    end of dec, and reshape raises when the slice has not [size] elements. *)
Fixpoint revert (numels : seq nat) (dec : seq F) (ptr : nat) :
  outcome (seq (seq F)) :=
  if numels is sz :: rest then
    let sl := take sz (drop ptr dec) in
    if size sl == sz then revert rest dec (ptr + sz) >>= fun r => Ok (sl :: r)
    else Raise RuntimeError
  else Ok [::].

(** decoder(encs_brs_1024, encs_brs_512); the layers of the global model
    enter through their sizes. *)
Definition decoder (numels : seq nat)
    (encs_brs_1024 : seq (seq F) * seq (seq (F * F)))
    (encs_brs_512 : seq F * seq (F * F)) : outcome (seq (seq F)) :=
  linalg_inv R1024 >>= fun Ri1024 =>
  matmul_T Ri1024 (dec1024 encs_brs_1024) >>= fun z1024 =>
  linalg_inv R512 >>= fun Ri512 =>
  matmul_vec Ri512 (dec512 encs_brs_512) >>= fun z512 =>
  let dec := flatten z1024 ++ z512 in
  revert numels dec 0.

(** torch.split(t, n): max(ceil(len(t) / n), 1) pieces of n elements, the
    last one shorter when n does not divide len(t). *)
Definition torch_split (t : seq F) (n : nat) : seq (seq F) :=
  reshape (nseq (maxn ((size t + n - 1) %/ n) 1) n) t.

(** torch.stack(ts): raises on an empty list and on tensors of different
    sizes. *)
Definition torch_stack (ts : seq (seq F)) : outcome (seq (seq F)) :=
  if ts is t :: ts' then
    if all (fun u => size u == size t) ts' then Ok ts else Raise RuntimeError
  else Raise RuntimeError.

(** t[-k:] for k >= 0: the last k elements, and all of t when k = 0. *)
Definition last_elems (k : nat) (t : seq F) : seq F :=
  drop (if k == 0%N then 0%N else (size t - k)%N) t.

(** Line 213: int(2 ** ceil(log2(n)) - n), the distance from n to the next
    power of two, with log2(0) = -inf. *)
Definition pad_count (n : nat) : nat :=
  if n == 0%N then 0%N else (2 ^ up_log 2 n - n)%N.

(** Lines 203-205: params1024 before the rotation, the stacked chunks of
    1024. *)
Definition params1024 (flat_params : seq F) : outcome (seq (seq F)) :=
  let L := size flat_params in
  torch_stack (torch_split (take (L - L %% 1024) flat_params) 1024).

(** Lines 210-213: params512 before the rotation, the zero-padded
    remainder. *)
Definition params512 (flat_params : seq F) : seq F :=
  let rest := last_elems (size flat_params %% 1024) flat_params in
  rest ++ nseq (pad_count (size rest)) 0.

(** encoder applied to a 2-d tensor: the elements are encoded in row-major
    order and both results have the shape of the tensor. *)
Definition encoder_rows (X : seq (seq F)) :
  outcome (dist F (seq (seq F)) * seq (seq (F * F))) :=
  encoder K (flatten X) >>= fun eb =>
  Ok ([seq (reshape (shape X) ew.1, ew.2) | ew <- eb.1], reshape (shape X) eb.2).

(** FlowerClient.get_parameters; [model] lists the flattened layers of
    self.model, which is the global model read by the decoder.  The outer
    outcome is that of the steps before the draws, the inner one that of the
    decoder. *)
Definition get_parameters (model : seq (seq F)) :
  outcome (dist F (outcome (seq (seq F)))) :=
  let flat_params := flatten model in
  params1024 flat_params >>= fun rows =>
  matmul_T R1024 rows >>= fun rotated1024 =>
  matmul_vec R512 (params512 flat_params) >>= fun rotated512 =>
  encoder_rows rotated1024 >>= fun encs_brs_1024 =>
  encoder K rotated512 >>= fun encs_brs_512 =>
  Ok (dbind encs_brs_1024.1 (fun e1 =>
      dbind encs_brs_512.1 (fun e2 =>
      dret F (decoder (shape model) (e1, encs_brs_1024.2)
                                    (e2, encs_brs_512.2))))).

End Client.

(* ---------------------------------------------------------------------- *)
(*  Closed forms used in the statements                                   *)
(* ---------------------------------------------------------------------- *)

Section ClosedForms.
Variable F : realFieldType.
Variable K : nat.

(** The i-th of K evenly spaced levels from mn to mx, and their sequence. *)
Definition level_at (mn mx : F) (i : nat) : F :=
  mn + ((mx - mn) * i%:R) / (K%:R - 1).

Definition level_seq (mn mx : F) : seq F :=
  [seq level_at mn mx i | i <- iota 0 K].

(** The pair (B(r), B(r+1)) the encoder attaches to v: r is one less than
    the position c found by searchsorted, and the upper index is r where
    c = K. *)
Definition bracket (b : seq F) (v : F) : F * F :=
  let c := searchsorted_right b v in
  (nth 0 b c.-1, nth 0 b (if c == K then K.-1 else c)).

(** The probability the encoder gives v in the pair br. *)
Definition prob_in (v : F) (br : F * F) : F :=
  if br.2 != br.1 then (v - br.1) / (br.2 - br.1) else 0.




End ClosedForms.

(* ---------------------------------------------------------------------- *)
(*  Further notions used in the statements                                *)
(* ---------------------------------------------------------------------- *)


Section Distance.
Variable F : realFieldType.



End Distance.

(* ---------------------------------------------------------------------- *)
(*  Python dicts with string keys                                         *)
(* ---------------------------------------------------------------------- *)

HB.instance Definition _ := hasDecEq.Build string String.eqb_spec.

Definition KeyError : exn := "KeyError"%string.
Definition ZeroDivisionError : exn := "ZeroDivisionError"%string.

Section Dict.
Variable A : Type.

(** A dict or OrderedDict: its items in insertion order. *)
Definition dict := seq (string * A).

(** d.keys() *)
Definition dict_keys (d : dict) : seq string := [seq kv.1 | kv <- d].

(** d.get(k) *)
Fixpoint dict_get (d : dict) (k : string) : option A :=
  if d is kv :: d' then
    if kv.1 == k then Some kv.2 else dict_get d' k
  else None.

(** d[k], which raises KeyError on a missing key. *)
Definition dict_getitem (d : dict) (k : string) : outcome A :=
  if dict_get d k is Some v then Ok v else Raise KeyError.

(** d[k] = v: the value of a key already there is replaced in place, a new
    key goes last. *)
Fixpoint dict_set (d : dict) (k : string) (v : A) : dict :=
  if d is kv :: d' then
    if kv.1 == k then (kv.1, v) :: d' else kv :: dict_set d' k v
  else [:: (k, v)].

(** {k: v for k, v in items}, and OrderedDict of it. *)
Definition dict_of_items (items : seq (string * A)) : dict :=
  foldl (fun d kv => dict_set d kv.1 kv.2) [::] items.

End Dict.

(* ---------------------------------------------------------------------- *)
(*  FlowerClient.set_parameters                                           *)
(* ---------------------------------------------------------------------- *)

Section Model.
Variable F : realFieldType.

(** A tensor or numpy array with its shape; [dat] lists the elements in
    row-major order. *)
Record ndarray : Type := Ndarray { shp : seq nat; dat : seq F }.

(** model.state_dict(): the names of the entries of the module with their
    tensors, in the order of the module.  LeNet5 has no buffers: the entries
    are its layers, in the order of model.parameters(). *)
Definition state_dict := dict ndarray.

(** Module._load_from_state_dict: a 1-d input for a 0-d entry is replaced by
    its first element, input_param[0], which raises IndexError on an empty
    input. *)
Definition input_param (param input : ndarray) : outcome ndarray :=
  if (shp param == [::]) && (size (shp input) == 1%N) then
    if shp input == [:: 0%N] then Raise IndexError
    else Ok (Ndarray [::] (take 1 (dat input)))
  else Ok input.

(** One entry of the module in load_state_dict: the input of its key is
    copied into it when the shapes agree.  The flag notes an error: a size
    mismatch, or a key missing from the inputs. *)
Definition load_entry (sd : state_dict) (kv : string * ndarray) :
  outcome (string * ndarray * bool) :=
  if dict_get sd kv.1 is Some input then
    input_param kv.2 input >>= fun inp =>
    if shp inp != shp kv.2 then Ok (kv, true) else Ok ((kv.1, inp), false)
  else Ok (kv, true).

(** model.load_state_dict(sd, strict=True): raises RuntimeError when an
    entry noted an error or [sd] has a key the module has not.  The state of
    the module after an exception is not modelled. *)
Definition load_state_dict (model sd : state_dict) : outcome state_dict :=
  mapM (load_entry sd) model >>= fun loaded =>
  let unexpected_keys := [seq k <- dict_keys sd | ~~ dict_get model k] in
  if has snd loaded || (unexpected_keys != [::]) then Raise RuntimeError
  else Ok [seq l.1 | l <- loaded].

(** Lines 222-227: FlowerClient.set_parameters(parameters, config), which
    does not read config.  zip stops at the shorter of the keys and the
    parameters.  Returns the new state of self.model. *)
Definition set_parameters (model : state_dict) (parameters : seq ndarray) :
  outcome state_dict :=
  let param_dict := zip (dict_keys model) parameters in
  let sd := dict_of_items param_dict in
  load_state_dict model sd.

End Model.

(* ---------------------------------------------------------------------- *)
(*  val, FlowerClient.evaluate and FlowerClient.fit                       *)
(* ---------------------------------------------------------------------- *)

(** LeNet5(num_classes=10), and the batch size of the loaders. *)
Definition num_classes : nat := 10.
Definition BATCH_SIZE : nat := 32.

Section Evaluation.
Variable F : realFieldType.

(** The images, and the labelled samples of a dataset. *)
Variable X : Type.
Definition sample : Type := X * 'I_num_classes.

(** model(X) on one image: the output of LeNet5.forward for the state of the
    model.  The layers of LeNet5 act on every image of a batch alone.  Tanh
    is not a function of a real field: the network is a parameter. *)
Variable forward : state_dict F -> X -> num_classes.-tuple F.

(** The cross entropy of one sample, -log(softmax(yhat)[y]); also a
    parameter. *)
Variable cross_entropy : num_classes.-tuple F -> 'I_num_classes -> F.

(** train(model, trainloader, epochs): the state of the model after the
    epochs of stochastic gradient descent on shuffled batches; a parameter. *)
Variable train : state_dict F -> seq sample * nat -> int -> state_dict F.

(** The batches of DataLoader(dataset, batch_size, shuffle=False), for
    batch_size >= 1: the samples in order, batch_size at a time, and a last
    batch of the samples left over. *)
Definition batches (loader : seq sample * nat) : seq (seq sample) :=
  let n := size loader.1 in
  let b := loader.2 in
  reshape (nseq (n %/ b) b ++ (if n %% b == 0 then [::] else [:: n %% b])%N)
          loader.1.

(** torch.max(yhat, 1)[1] on one row: the index of the greatest entry, the
    first one when it occurs more than once. *)
Definition argmax (row : seq F) : nat :=
  if row is x :: r then index (foldr Order.max x r) row else 0%N.

(** nn.CrossEntropyLoss() on a batch: the mean over its samples. *)
Definition loss_fn (model : state_dict F) (batch : seq sample) : F :=
  foldr (fun xy acc => cross_entropy (forward model xy.1) xy.2 + acc) 0 batch
  / (size batch)%:R.

(** The sample is classified as labelled. *)
Definition correct (model : state_dict F) (xy : sample) : bool :=
  argmax (forward model xy.1) == xy.2 :> nat.

(** Lines 86-97: val(model, valloader), returning (loss, acc).  The division
    of the int crct by len(valloader.dataset) raises on an empty dataset. *)
Definition val (model : state_dict F) (valloader : seq sample * nat) :
  outcome (F * F) :=
  let lc := foldl (fun lc batch =>
                     (lc.1 + loss_fn model batch,
                      (lc.2 + count (correct model) batch)%N))
                  (0, 0%N) (batches valloader) in
  if size valloader.1 == 0%N then Raise ZeroDivisionError
  else Ok (lc.1, lc.2%:R / (size valloader.1)%:R).

(** Lines 239-245: FlowerClient.evaluate(parameters, config), which does not
    read config.  Returns the new state of self.model with the triple
    (loss, number of samples, metrics). *)
Definition evaluate (model : state_dict F) (valloader : seq sample * nat)
    (parameters : seq (ndarray F)) :
  outcome (state_dict F * (F * nat * dict F)) :=
  set_parameters model parameters >>= fun model' =>
  val model' valloader >>= fun la =>
  Ok (model', (la.1, size valloader.1,
               dict_of_items [:: ("accuracy"%string, la.2);
                                 ("losss"%string, la.1)])).

(** Lines 229-237: FlowerClient.fit(parameters, config); the values of
    config are taken to be ints.  Returns the state of self.model after the
    training with the triple (parameters, number of samples, metrics), where
    the parameters are those of get_parameters, each draw reshaped to the
    layers of the model. *)
Definition fit (K : nat) (R1024 : 'M[F]_1024) (R512 : 'M[F]_512)
    (model : state_dict F) (trainloader : seq sample * nat)
    (parameters : seq (ndarray F)) (config : dict int) :
  outcome (state_dict F *
           (dist F (outcome (seq (ndarray F))) * nat * dict F)) :=
  dict_getitem config "local_epochs"%string >>= fun local_epochs =>
  set_parameters model parameters >>= fun model1 =>
  let model2 := train model1 trainloader local_epochs in
  get_parameters K R1024 R512 [seq dat kv.2 | kv <- model2] >>= fun dd =>
  let as_layers (layers : seq (seq F)) :=
    [seq Ndarray (shp kl.1.2) kl.2 | kl <- zip model2 layers] in
  Ok (model2,
      ([seq (ow.1 >>= fun layers => Ok (as_layers layers), ow.2) | ow <- dd],
       size trainloader.1, [::])).

End Evaluation.

(* ====================================================================== *)
(*  Properties                                                            *)
(* ====================================================================== *)

Section OutcomeFacts.
Variables (A : eqType) (B : Type).

Lemma mapM_ok (f : A -> outcome B) (g : A -> B) (s : seq A) :
  {in s, forall x, f x = Ok (g x)} -> mapM f s = Ok [seq g x | x <- s].
Proof.
elim: s => [//|x s IH] H /=.
rewrite (H x (mem_head _ _)) /= IH // => y ys.
by apply: H; rewrite inE ys orbT.
Qed.

End OutcomeFacts.

Section MaxMin.
Variable F : realFieldType.
Implicit Types (x y : F) (t : seq F).

Lemma foldr_max_mem x t : foldr Order.max x t \in x :: t.
Proof.
elim: t => [|y t IH] /=; first by rewrite mem_head.
case: (leP y (foldr Order.max x t)) => _.
- by move: IH; rewrite !inE => /orP[->//|->]; rewrite !orbT.
- by rewrite !inE eqxx orbT.
Qed.

Lemma foldr_max_ub x t y : y \in x :: t -> y <= foldr Order.max x t.
Proof.
elim: t y => [|z t IH] y /=; first by rewrite inE => /eqP->.
rewrite le_max !inE => /or3P[/eqP->|/eqP->|yt].
- by rewrite IH ?orbT // mem_head.
- by rewrite lexx.
- by rewrite IH ?orbT // inE yt orbT.
Qed.

Lemma foldr_min_mem x t : foldr Order.min x t \in x :: t.
Proof.
elim: t => [|y t IH] /=; first by rewrite mem_head.
case: (leP y (foldr Order.min x t)) => _.
- by rewrite !inE eqxx orbT.
- by move: IH; rewrite !inE => /orP[->//|->]; rewrite !orbT.
Qed.

Lemma foldr_min_lb x t y : y \in x :: t -> foldr Order.min x t <= y.
Proof.
elim: t y => [|z t IH] y /=; first by rewrite inE => /eqP->.
rewrite ge_min !inE => /or3P[/eqP->|/eqP->|yt].
- by rewrite IH ?orbT // mem_head.
- by rewrite lexx.
- by rewrite IH ?orbT // inE yt orbT.
Qed.

(** torch.max and torch.min of a non-empty tensor: attained bounds. *)
Lemma torch_maxP t :
  t != [::] -> exists2 mx, torch_max t = Ok mx & mx \in t /\ forall y, y \in t -> y <= mx.
Proof.
case: t => [//|x t] _; exists (foldr Order.max x t) => //.
by split; [exact: foldr_max_mem | move=> y; exact: foldr_max_ub].
Qed.

Lemma torch_minP t :
  t != [::] -> exists2 mn, torch_min t = Ok mn & mn \in t /\ forall y, y \in t -> mn <= y.
Proof.
case: t => [//|x t] _; exists (foldr Order.min x t) => //.
by split; [exact: foldr_min_mem | move=> y; exact: foldr_min_lb].
Qed.

End MaxMin.

Section Levels.
Variable F : realFieldType.
Variable K : nat.
Hypothesis K_gt1 : (1 < K)%N.
Implicit Types (mn mx v : F) (i j : nat).


Let den_gt0 : 0 < K%:R - 1 :> F.
Proof. by rewrite subr_gt0 ltr1n. Qed.

Lemma predK_natr : (K.-1)%:R = K%:R - 1 :> F.
Proof. by rewrite -[in RHS](prednK (ltnW K_gt1)) -natr1 addrK. Qed.

Lemma level_at0 mn mx : level_at K mn mx 0 = mn.
Proof. by rewrite /level_at mulr0 mul0r addr0. Qed.

Lemma level_at_last mn mx : level_at K mn mx K.-1 = mx.
Proof.
by rewrite /level_at predK_natr mulfK ?gt_eqF // addrC subrK.
Qed.

Lemma level_at_mono mn mx i j :
  mn <= mx -> (i <= j)%N -> level_at K mn mx i <= level_at K mn mx j.
Proof.
move=> le_m le_ij; rewrite /level_at lerD2l.
apply: ler_wpM2r; first by rewrite invr_ge0 ltW.
by apply: ler_wpM2l; rewrite ?subr_ge0 // ler_nat.
Qed.

Lemma level_at_smono mn mx i j :
  mn < mx -> (i < j)%N -> level_at K mn mx i < level_at K mn mx j.
Proof.
move=> lt_m lt_ij; rewrite /level_at ltrD2l ltr_pM2r ?invr_gt0 //.
by rewrite ltr_pM2l ?subr_gt0 // ltr_nat.
Qed.


Lemma size_level_seq mn mx : size (level_seq K mn mx) = K.
Proof. by rewrite size_map size_iota. Qed.

Lemma nth_level_seq mn mx i :
  (i < K)%N -> nth 0 (level_seq K mn mx) i = level_at K mn mx i.
Proof. by move=> lt_i; rewrite (nth_map 0%N) ?size_iota // nth_iota. Qed.

Lemma levelsE (params : seq F) :
  params != [::] ->
  exists mn mx, [/\ torch_min params = Ok mn, torch_max params = Ok mx,
    (mn \in params) && (mx \in params),
    (forall y, y \in params -> mn <= y <= mx)
    & levels K params = Ok (level_seq K mn mx)].
Proof.
move=> ne; have [mx Emx [mx_in ub]] := torch_maxP ne.
have [mn Emn [mn_in lb]] := torch_minP ne.
exists mn, mx; split=> //; first by rewrite mn_in.
  by move=> y yin; rewrite lb ?ub.
rewrite /levels Emx Emn /= (gtn_eqF K_gt1) /torch_arange /level_seq.
by rewrite -map_comp.
Qed.

(** Where searchsorted lands on the level sequence. *)
Lemma searchsorted_bounds mn mx v :
  mn <= v -> v <= mx ->
  let c := searchsorted_right (level_seq K mn mx) v in
  [/\ (0 < c <= K)%N,
      nth 0 (level_seq K mn mx) c.-1 <= v,
      (c < K)%N -> v < nth 0 (level_seq K mn mx) c
    & c = K -> v = mx].
Proof.
move=> le_mn le_mx c.
have cK : (c <= K)%N by rewrite -(size_level_seq mn mx) find_size.
have c0 : (0 < c)%N.
  rewrite /c /searchsorted_right /level_seq.
  rewrite -[X in iota 0 X](prednK (ltnW K_gt1)) /=.
  by rewrite level_at0 ltNge le_mn.
split.
- by rewrite c0 cK.
- rewrite leNgt; apply/negbT.
  by apply: (before_find 0 (a := fun x => v < x)); rewrite prednK.
- move=> ltc.
  have := @nth_find _ 0 (fun x => v < x) (level_seq K mn mx).
  by rewrite has_find size_level_seq; apply.
- move=> cE; apply/le_anti; rewrite le_mx /=.
  have := @before_find _ 0 (fun x => v < x) (level_seq K mn mx) K.-1.
  rewrite -/(searchsorted_right _ _) -/c cE prednK ?(ltnW K_gt1) // leqnn.
  move=> /(_ isT) /negbT; rewrite -leNgt nth_level_seq ?level_at_last //.
  by rewrite prednK ?(ltnW K_gt1).
Qed.

End Levels.

Section EncoderFacts.
Variable F : realFieldType.
Variable K : nat.
Hypothesis K_gt1 : (1 < K)%N.
Implicit Types (mn mx v : F) (b params : seq F).


Lemma mapM_map (A B C : Type) (h : A -> B) (f : B -> outcome C) (s : seq A) :
  mapM f [seq h x | x <- s] = mapM (f \o h) s.
Proof. by elim: s => [//|x s IH] /=; rewrite IH. Qed.

Lemma getitem_nat b i : (i < size b)%N -> getitem b i%:Z = Ok (nth 0 b i).
Proof. by move=> lt_i; rewrite /getitem /= ltz_nat lt_i. Qed.

Lemma brsE mn mx params :
  (forall y, y \in params -> mn <= y <= mx) ->
  let b := level_seq K mn mx in
  brs b (pts K (ids b params)) = Ok [seq bracket K b v | v <- params].
Proof.
move=> bnd b; rewrite /brs /pts /ids -map_comp mapM_map.
apply: mapM_ok => v /bnd/andP[le_mn le_mx] /=.
have [/andP[c0 cK] _ _ _] := searchsorted_bounds K_gt1 le_mn le_mx.
rewrite /bracket -/b; set c := searchsorted_right b v in c0 cK *.
have -> : c%:Z - 1 = c.-1%:Z :> int.
  by rewrite -[in LHS](prednK c0) -addn1 PoszD addrK.
have ltc : (c.-1 < K)%N by rewrite prednK.
rewrite /clip eqz_nat (ltn_eqF ltc) getitem_nat ?size_level_seq //=.
have -> : c.-1%:Z + 1 = c%:Z :> int.
  by rewrite -[in RHS](prednK c0) -addn1 PoszD.
rewrite eqz_nat; case: eqP => [cE|/eqP cN].
  have -> : K%:Z - 1 = K.-1%:Z :> int.
    by rewrite -[in LHS](prednK (ltnW K_gt1)) -addn1 PoszD addrK.
  by rewrite getitem_nat // size_level_seq prednK // ltnW.
by rewrite getitem_nat // size_level_seq ltn_neqAle cN.
Qed.

Lemma probsE (g : F -> F * F) params :
  probs params [seq g v | v <- params] = [seq prob_in v (g v) | v <- params].
Proof.
rewrite /probs; elim: params => [//|v params IH] /=.
by rewrite IH /prob_in; case: ifP.
Qed.

Lemma bracket_bounds mn mx v :
  mn <= v -> v <= mx ->
  let br := bracket K (level_seq K mn mx) v in
  [/\ br.1 <= v, v <= br.2, br.2 != br.1 -> v < br.2 & v = mx -> br = (mx, mx)].
Proof.
move=> le_mn le_mx; rewrite /bracket.
have [/andP[c0 cK] lo hi top] := searchsorted_bounds K_gt1 le_mn le_mx.
set c := searchsorted_right _ v in c0 cK lo hi top *.
have lastE : nth 0 (level_seq K mn mx) K.-1 = mx.
  by rewrite nth_level_seq ?level_at_last // prednK // ltnW.
have [cE|cN] := eqVneq c K.
  by rewrite cE eqxx lastE -(top cE) /=; split.
have ltc : (c < K)%N by rewrite ltn_neqAle cN.
split=> //=.
- exact: ltW (hi ltc).
- by move=> _; exact: hi.
move=> vE; have := hi ltc; rewrite vE ltNge.
rewrite -[X in _ <= X](level_at_last K_gt1 mn) nth_level_seq //.
rewrite level_at_mono //; first exact: le_trans le_mn le_mx.
by rewrite -ltnS prednK // ltnW.
Qed.

Lemma prob_in_range mn mx v :
  mn <= v -> v <= mx ->
  0 <= prob_in v (bracket K (level_seq K mn mx) v) < 1.
Proof.
move=> le_mn le_mx; rewrite /prob_in.
have [] := bracket_bounds le_mn le_mx.
move: (bracket K _ v) => [l h] /= lo hi hi' _.
case: ifP => [/hi' lt_h|_]; last by rewrite lexx ltr01.
have lt_lh : l < h := le_lt_trans lo lt_h.
have pos : 0 < h - l by rewrite subr_gt0.
apply/andP; split; first by rewrite divr_ge0 ?subr_ge0 // ltW.
by rewrite ltr_pdivrMr // mul1r ltrD2r.
Qed.

(** The encoder returns normally on a non-empty tensor, with these parts. *)
Lemma encoderE params :
  params != [::] ->
  exists mn mx, [/\ torch_min params = Ok mn, torch_max params = Ok mx,
    (mn \in params) && (mx \in params),
    (forall y, y \in params -> mn <= y <= mx)
    & let b := level_seq K mn mx in
      levels K params = Ok b /\
      encoder K params =
        Ok (torch_bernoulli [seq prob_in v (bracket K b v) | v <- params],
            [seq bracket K b v | v <- params])].
Proof.
move=> /(levelsE K_gt1)[mn [mx [Emn Emx mem bnd Eb]]].
exists mn, mx; split=> // b; split=> //.
rewrite /encoder Eb /= brsE //= probsE /encs.
rewrite (_ : all _ _ = true) //; apply/allP => p /mapP[v /bnd/andP[v1 v2] ->].
by have /andP[-> /ltW->] := prob_in_range v1 v2.
Qed.

End EncoderFacts.

Section DistFacts.
Variable F : realFieldType.
Implicit Types (p : F) (ps : seq F).

Lemma expect_cat (A : Type) (f : A -> F) (d1 d2 : dist F A) :
  expect f (d1 ++ d2) = expect f d1 + expect f d2.
Proof. by elim: d1 => [|xw d1 IH] /=; rewrite ?add0r // IH addrA. Qed.

Lemma expect_scale (A B : Type) (f : B -> F) (w : F) (d : dist F B) :
  expect f [seq (yw.1, w * yw.2) | yw <- d] = w * expect f d.
Proof.
elim: d => [|yw d IH] /=; first by rewrite mulr0.
by rewrite IH mulrDr mulrCA.
Qed.

Lemma expect_dret (A : Type) (f : A -> F) (a : A) : expect f (dret F a) = f a.
Proof. by rewrite /= mulr1 addr0. Qed.

Lemma expect_dbind (A B : Type) (f : B -> F) (d : dist F A) (k : A -> dist F B) :
  expect f (dbind d k) = expect (fun a => expect f (k a)) d.
Proof.
rewrite /dbind; elim: d => [//|xw d IH] /=.
by rewrite expect_cat IH (@expect_scale A) mulrC.
Qed.

Lemma expect_bernoulli (g : F -> F) p :
  expect g (bernoulli p) = g 1 * p + g 0 * (1 - p).
Proof. by rewrite /= addr0. Qed.

Lemma mass_bernoulli p : mass (bernoulli p) = 1.
Proof. by rewrite /mass expect_bernoulli !mul1r addrC subrK. Qed.

Lemma eq_expect (A : Type) (f g : A -> F) (d : dist F A) :
  f =1 g -> expect f d = expect g d.
Proof. by move=> fg; elim: d => [//|xw d IH] /=; rewrite fg IH. Qed.

Lemma expect_torch_bernoulli_cons (f : seq F -> F) p ps :
  expect f (torch_bernoulli (p :: ps)) =
  expect (fun x => expect (fun xs => f (x :: xs)) (torch_bernoulli ps))
         (bernoulli p).
Proof.
rewrite [LHS]expect_dbind; apply: eq_expect => x.
by rewrite expect_dbind; apply: eq_expect => xs; rewrite expect_dret.
Qed.

Lemma expect_const (A : Type) (c : F) (d : dist F A) :
  expect (fun=> c) d = c * mass d.
Proof.
rewrite /mass; elim: d => [|xw d IH] /=; first by rewrite mulr0.
by rewrite IH mul1r mulrDr.
Qed.



Lemma mass_torch_bernoulli ps : mass (torch_bernoulli ps) = 1.
Proof.
rewrite /mass; elim: ps => [|p ps IH]; first by rewrite expect_dret.
rewrite expect_torch_bernoulli_cons (eq_expect (g := fun=> 1)) //.
exact: mass_bernoulli.
Qed.

(** The i-th element of the drawn tensor is one Bernoulli trial with the
    i-th probability. *)
Lemma marginal (g : F -> F) ps i :
  (i < size ps)%N ->
  expect (fun e => g (nth 0 e i)) (torch_bernoulli ps) =
  expect g (bernoulli (nth 0 ps i)).
Proof.
elim: ps i => [//|p ps IH] [|i] lt_i; rewrite expect_torch_bernoulli_cons.
- apply: eq_expect => x.
  rewrite (eq_expect (g := fun=> g x)) //.
  by rewrite expect_const mass_torch_bernoulli mulr1.
- rewrite (eq_expect (g := fun=> expect g (bernoulli (nth 0 ps i)))).
    by move=> x; rewrite -IH.
  by rewrite expect_const mass_bernoulli mulr1.
Qed.



End DistFacts.

Section DecodeFacts.
Variable F : realFieldType.
Implicit Types (encs : seq F) (bs : seq (F * F)).

(** One reconstructed estimate. *)
Lemma nth_decode encs bs i :
  size encs = size bs -> (i < size bs)%N ->
  nth 0 (decode encs bs) i =
  if nth 0 encs i == 1
  then (3 * (nth (0, 0) bs i).2 + (nth (0, 0) bs i).1) / 4
  else (3 * (nth (0, 0) bs i).1 + (nth (0, 0) bs i).2) / 4.
Proof.
rewrite /decode; elim: encs bs i => [|e encs IH] [|br bs] [|i] //=.
by move=> [sz] lt_i; rewrite IH.
Qed.



End DecodeFacts.

Section MoreEncoderFacts.
Variable F : realFieldType.
Variable K : nat.
Hypothesis K_gt1 : (1 < K)%N.



End MoreEncoderFacts.

Section RotationFacts.
Variable F : realFieldType.
Variable n : nat.
Implicit Types (x : seq F) (X : seq (seq F)) (R : 'M[F]_n).

Lemma size_seq_of_col (c : 'cV[F]_n) : size (seq_of_col c) = n.
Proof. by rewrite size_map size_enum_ord. Qed.

Lemma nth_seq_of_col (c : 'cV[F]_n) (i : 'I_n) : nth 0 (seq_of_col c) i = c i ord0.
Proof. by rewrite (nth_map i) ?size_enum_ord // nth_ord_enum. Qed.

Lemma seq_of_colK (c : 'cV[F]_n) : col_of_seq n (seq_of_col c) = c.
Proof. by apply/colP => i; rewrite mxE nth_seq_of_col. Qed.

Lemma col_of_seqK x : size x = n -> seq_of_col (col_of_seq n x) = x.
Proof.
move=> sz; apply: (@eq_from_nth _ 0); first by rewrite size_seq_of_col.
rewrite size_seq_of_col => i lt_i.
by rewrite (nth_seq_of_col _ (Ordinal lt_i)) mxE.
Qed.

Lemma size_rows_of_mx m (A : 'M[F]_(m, n)) : size (rows_of_mx A) = m.
Proof. by rewrite size_map size_enum_ord. Qed.

Lemma rows_of_mx_width m (A : 'M[F]_(m, n)) :
  all (fun r => size r == n) (rows_of_mx A).
Proof. by apply/allP => r /mapP[i _ ->]; rewrite size_map size_enum_ord. Qed.

Lemma nth_rows_of_mx m (A : 'M[F]_(m, n)) (i : 'I_m) (j : 'I_n) :
  nth 0 (nth [::] (rows_of_mx A) i) j = A i j.
Proof.
rewrite (nth_map i) ?size_enum_ord // nth_ord_enum.
by rewrite (nth_map j) ?size_enum_ord // nth_ord_enum.
Qed.

Lemma rows_of_mxK m (A : 'M[F]_(m, n)) : mx_of_rows m n (rows_of_mx A) = A.
Proof. by apply/matrixP => i j; rewrite mxE nth_rows_of_mx. Qed.

Lemma mx_of_rowsK X :
  all (fun r => size r == n) X -> rows_of_mx (mx_of_rows (size X) n X) = X.
Proof.
move=> /allP wd; apply: (@eq_from_nth _ [::]); first by rewrite size_rows_of_mx.
rewrite size_rows_of_mx => i lt_i.
have szi : size (nth [::] X i) = n by apply/eqP/wd; rewrite mem_nth.
apply: (@eq_from_nth _ 0).
  by rewrite (nth_map (Ordinal lt_i)) ?size_enum_ord // size_map size_enum_ord.
rewrite (nth_map (Ordinal lt_i)) ?size_enum_ord // size_map size_enum_ord.
move=> j lt_j; rewrite (nth_map (Ordinal lt_j)) ?size_enum_ord // mxE.
by rewrite !nth_enum_ord.
Qed.

Lemma matmul_TE R X m :
  size X = m -> all (fun r => size r == n) X ->
  matmul_T R X = Ok (rows_of_mx (R *m (mx_of_rows m n X)^T)^T).
Proof. by move=> <- wd; rewrite /matmul_T wd. Qed.

Lemma orthogonal_unit R : R *m R^T = 1%:M -> R \in unitmx.
Proof. by case/mulmx1_unit. Qed.

Lemma orthogonal_inv R : R *m R^T = 1%:M -> linalg_inv R = Ok R^T.
Proof.
move=> orth; rewrite /linalg_inv (orthogonal_unit orth); congr Ok.
by rewrite -[RHS](mulKmx (orthogonal_unit orth)) orth mulmx1.
Qed.

Lemma rotate_rowsK R X :
  R \in unitmx -> all (fun r => size r == n) X ->
  (matmul_T R X >>= fun Y => linalg_inv R >>= fun Ri => matmul_T Ri Y) = Ok X.
Proof.
move=> uR wd; rewrite (@matmul_TE R X (size X) (erefl _) wd) /=.
rewrite /linalg_inv uR /=.
rewrite (@matmul_TE _ _ (size X)) ?size_rows_of_mx ?rows_of_mx_width //.
by rewrite rows_of_mxK trmxK mulKmx // trmxK mx_of_rowsK.
Qed.

Lemma rotate_vecK R x :
  R \in unitmx -> size x = n ->
  (matmul_vec R x >>= fun y => linalg_inv R >>= fun Ri => matmul_vec Ri y) = Ok x.
Proof.
move=> uR sz; rewrite /matmul_vec sz eqxx /= /linalg_inv uR /=.
by rewrite size_seq_of_col eqxx seq_of_colK mulKmx // col_of_seqK.
Qed.

End RotationFacts.

Section ChunkFacts.
Variable F : realFieldType.
Implicit Types (flat dec s t : seq F) (sh numels : seq nat).

Lemma reshape_cat_prefix sh s t :
  (sumn sh <= size s)%N -> reshape sh (s ++ t) = reshape sh s.
Proof.
elim: sh s => [//|n sh IH] s /= le_s.
have le_n : (n <= size s)%N := leq_trans (leq_addr _ _) le_s.
rewrite take_cat drop_cat ltn_neqAle le_n andbT.
case: eqP => [nE|_]; last by rewrite IH // size_drop leq_subRL.
rewrite nE subnn take0 drop0 cats0 take_size drop_size /=.
have sh0 : sumn sh = 0%N by apply/eqP; rewrite -leqn0 -(leq_add2l n) addn0 {2}nE.
by rewrite (IH [::] ) ?sh0 // -[t in LHS]cat0s IH ?sh0.
Qed.

Lemma reshape_take sh s :
  (sumn sh <= size s)%N -> reshape sh s = reshape sh (take (sumn sh) s).
Proof.
move=> le_s; rewrite -[in LHS](cat_take_drop (sumn sh) s).
by rewrite reshape_cat_prefix // size_take_min (minn_idPl le_s).
Qed.

(** The loop of the decoder returns the leading slices of dec, one per layer. *)
Lemma revert_ok numels dec ptr :
  (ptr + sumn numels <= size dec)%N ->
  revert numels dec ptr = Ok (reshape numels (drop ptr dec)).
Proof.
elim: numels ptr => [//|sz rest IH] ptr /=; rewrite addnA => le_d.
have le_sz : (ptr + sz <= size dec)%N := leq_trans (leq_addr _ _) le_d.
rewrite size_take_min size_drop (minn_idPl _) ?leq_subRL ?eqxx //.
  exact: leq_trans (leq_addr _ _) le_sz.
by rewrite IH //= drop_drop addnC.
Qed.

Lemma stack_ok (ts : seq (seq F)) w m :
  shape ts = nseq m.+1 w -> torch_stack ts = Ok ts.
Proof.
case: ts => [//|t ts] /= [-> shE].
rewrite (_ : all _ ts) //; apply/allP => u u_in.
have : size u \in shape ts by apply: map_f.
by rewrite shE => /nseqP[-> _].
Qed.

Section Split.
Variable flat : seq F.
Let L := size flat.
Let q := (L %/ 1024)%N.
Let r := (L %% 1024)%N.

Lemma chunked_size : (L - r = q * 1024)%N.
Proof. by rewrite /r /q /L {1}(divn_eq (size flat) 1024) addnK. Qed.

Lemma chunked_le : (q * 1024 <= L)%N.
Proof. exact: leq_trunc_div. Qed.

Lemma params1024_small : (L < 1024)%N -> params1024 flat = Ok [:: [::]].
Proof.
move=> ltL; rewrite /params1024 -/L -/r chunked_size /q divn_small //.
by rewrite mul0n take0.
Qed.

Lemma params1024_full :
  (1024 <= L)%N ->
  exists rows,
    [/\ params1024 flat = Ok rows, shape rows = nseq q 1024
      & flatten rows = take (q * 1024) flat].
Proof.
move=> leL; rewrite /params1024 -/L -/r chunked_size.
have szt : size (take (q * 1024) flat) = (q * 1024)%N.
  by rewrite size_take_min (minn_idPl chunked_le).
have q_gt0 : (0 < q)%N by rewrite divn_gt0.
have -> : torch_split (take (q * 1024) flat) 1024 =
          reshape (nseq q 1024) (take (q * 1024) flat).
  rewrite /torch_split szt -addnBA // divnMDl // divn_small // addn0.
  by rewrite (maxn_idPl q_gt0).
exists (reshape (nseq q 1024) (take (q * 1024) flat)).
have shE : shape (reshape (nseq q 1024) (take (q * 1024) flat)) = nseq q 1024.
  by rewrite reshapeKl // sumn_nseq szt mulnC.
split=> //; last by rewrite reshapeKr // sumn_nseq szt mulnC.
by apply: (@stack_ok _ 1024 q.-1); rewrite shE prednK.
Qed.

Lemma params1024_flatten :
  exists rows, params1024 flat = Ok rows /\ flatten rows = take (q * 1024) flat.
Proof.
case: (leqP 1024 L) => [/params1024_full[rows [E _ fl]]|ltL]; first by exists rows.
exists [:: [::]]; split; first exact: params1024_small.
by rewrite /q divn_small // mul0n take0.
Qed.

Lemma params512_pos :
  r != 0%N ->
  params512 flat =
    drop (q * 1024) flat ++ nseq (2 ^ up_log 2 r - r) 0 /\
  size (params512 flat) = (2 ^ up_log 2 r)%N.
Proof.
move=> r_neq0; rewrite /params512 /last_elems -/L -/r (negbTE r_neq0).
have le_r : (r <= L)%N by rewrite /r leq_mod.
have szd : size (drop (L - r) flat) = r by rewrite size_drop subKn.
rewrite szd /pad_count (negbTE r_neq0) size_cat szd size_nseq chunked_size.
by rewrite subnKC // up_logP.
Qed.

Lemma params512_zero :
  r = 0%N -> params512 flat = flat ++ nseq (pad_count L) 0.
Proof. by rewrite /params512 /last_elems -/L -/r => ->; rewrite drop0. Qed.

Lemma take_divisible : r = 0%N -> take (q * 1024) flat = flat.
Proof.
move=> r0; have -> : (q * 1024)%N = L.
  by rewrite [RHS](divn_eq L 1024) -/r r0 addn0.
exact: take_size.
Qed.

Lemma pow2_512 : (256 < r <= 512)%N = (2 ^ up_log 2 r == 512)%N.
Proof.
apply/idP/eqP => [bnd|].
  by rewrite (@up_log_eq 2 8).
rewrite (_ : 512 = 2 ^ 9)%N // => /eqP; rewrite eqn_exp2l // => /eqP upE.
have r_gt1 : (1 < r)%N.
  by rewrite ltnNge; apply/negP => le1; move: upE; case: (r) le1 => [|[|]].
by have := up_log_bounds (isT : 1 < 2)%N r_gt1; rewrite upE.
Qed.

End Split.
End ChunkFacts.

Section ErrorFacts.
Variable F : realFieldType.
Variable K : nat.





Lemma encoder_empty : encoder K ([::] : seq F) = Raise RuntimeError.
Proof. by []. Qed.

End ErrorFacts.


Section PipelineFacts.
Variable F : realFieldType.

Lemma all_dbind (A B : Type) (Q : A -> bool) (P : B -> bool)
    (d : dist F A) (k : A -> dist F B) :
  all (fun xw => Q xw.1) d ->
  (forall x, Q x -> all (fun yw => P yw.1) (k x)) ->
  all (fun yw => P yw.1) (dbind d k).
Proof.
move=> + kP; rewrite /dbind; elim: d => [//|xw d IH] /= /andP[Qx Qd].
rewrite all_cat IH // andbT all_map.
exact: sub_all (kP _ Qx).
Qed.

(** Every tensor torch.bernoulli can return has the shape of the
    probabilities. *)
Lemma size_torch_bernoulli (ps : seq F) :
  all (fun ew => size ew.1 == size ps) (torch_bernoulli ps).
Proof.
elim: ps => [//|p ps IH] /=.
pose P := fun e : seq F => size e == (size ps).+1.
apply: (@all_dbind _ _ xpredT P); first by rewrite /bernoulli /=.
move=> x _; apply: (@all_dbind _ _ (fun e => size e == size ps) P) IH _.
by move=> xs /eqP sz; rewrite /P /= sz eqxx.
Qed.


Lemma shape_rows_of_mx m n (A : 'M[F]_(m, n)) : shape (rows_of_mx A) = nseq m n.
Proof.
apply: (@eq_from_nth _ 0%N); first by rewrite size_map size_rows_of_mx size_nseq.
rewrite size_map size_rows_of_mx => i lt_i; rewrite nth_nseq lt_i.
rewrite (nth_map [::]) ?size_rows_of_mx //.
by rewrite (nth_map (Ordinal lt_i)) ?size_enum_ord // size_map size_enum_ord.
Qed.

Lemma all_width (X : seq (seq F)) m n :
  shape X = nseq m n -> all (fun r => size r == n) X.
Proof.
move=> sh; apply/allP => r r_in.
have : size r \in shape X by apply: map_f.
by rewrite sh => /nseqP[-> _].
Qed.

Lemma matmul_T_shape n (R : 'M[F]_n) (X : seq (seq F)) m :
  shape X = nseq m n ->
  exists2 Y, matmul_T R X = Ok Y & shape Y = nseq m n.
Proof.
move=> sh; have szX : size X = m by rewrite -(size_nseq m n) -sh size_map.
rewrite (matmul_TE R szX (all_width sh)).
by eexists; [reflexivity | rewrite shape_rows_of_mx].
Qed.



End PipelineFacts.

Section QuantizationFacts.
Variable F : realFieldType.
Variable K : nat.
Hypothesis K_gt1 : (1 < K)%N.
Implicit Types (mn mx v : F).

Lemma level_at_step mn mx i :
  level_at K mn mx i.+1 - level_at K mn mx i = (mx - mn) / (K%:R - 1).
Proof.
have den : K%:R - 1 != 0 :> F by rewrite subr_eq0 pnatr_eq1 gtn_eqF.
by rewrite /level_at -natr1; field.
Qed.

Lemma level_at_range mn mx i :
  mn <= mx -> (i < K)%N -> mn <= level_at K mn mx i <= mx.
Proof.
move=> le_m lt_i; have le_i : (i <= K.-1)%N by rewrite -ltnS prednK // ltnW.
apply/andP; split.
  by rewrite -[X in X <= _](level_at0 K mn mx) level_at_mono.
by rewrite -[X in _ <= X](level_at_last K_gt1 mn mx) level_at_mono.
Qed.




End QuantizationFacts.

Section EstimateFacts.
Variable F : realFieldType.


End EstimateFacts.

Section ErrorBound.
Variable F : realFieldType.
Variable K : nat.
Hypothesis K_gt1 : (1 < K)%N.


End ErrorBound.

Section ExpectedEstimate.
Variable F : realFieldType.

Lemma eq_in_expect (A : Type) (P : A -> bool) (f g : A -> F) (d : dist F A) :
  all (fun xw => P xw.1) d -> (forall x, P x -> f x = g x) ->
  expect f d = expect g d.
Proof.
move=> + fg; elim: d => [//|xw d IH] /= /andP[Px Pd].
by rewrite fg // IH.
Qed.

(** The expected estimate of the i-th element under the draw. *)
Lemma expect_decode (ps : seq F) (bs : seq (F * F)) i :
  size bs = size ps -> (i < size ps)%N ->
  let br := nth (0, 0) bs i in
  expect (fun e => nth 0 (decode e bs) i) (torch_bernoulli ps) =
  (3 * br.2 + br.1) / 4 * nth 0 ps i + (3 * br.1 + br.2) / 4 * (1 - nth 0 ps i).
Proof.
move=> sz lt_i br.
pose g (bit : F) := if bit == 1 then (3 * br.2 + br.1) / 4 else (3 * br.1 + br.2) / 4.
rewrite (@eq_in_expect _ (fun e => size e == size ps) _ (fun e => g (nth 0 e i))
          _ (size_torch_bernoulli ps)).
  by move=> e /eqP sze; rewrite nth_decode ?sz.
by rewrite marginal // expect_bernoulli /g eqxx eq_sym oner_eq0.
Qed.

(** The mean of the two estimates under the probability of the encoder. *)
Lemma mean_estimate (lo hi v : F) :
  lo <= v -> v <= hi ->
  let p := prob_in v (lo, hi) in
  let m := (3 * hi + lo) / 4 * p + (3 * lo + hi) / 4 * (1 - p) in
  [/\ m = (v + (lo + hi) / 2) / 2,
      (m == v) = (v == (lo + hi) / 2)
    & `|m - v| <= (hi - lo) / 4].
Proof.
move=> lo_v v_hi p m.
have E : m = (v + (lo + hi) / 2) / 2.
  rewrite /m /p /prob_in /=; case: ifPn => [ne_br|].
    have den : hi - lo != 0 by rewrite subr_eq0.
    by field.
  rewrite negbK => /eqP eq_br; have -> : v = lo.
    by apply/le_anti; rewrite lo_v -{1}eq_br v_hi.
  by rewrite eq_br; field.
rewrite E; split=> //.
  by apply/eqP/eqP => H; lra.
by rewrite ler_norml; apply/andP; split; lra.
Qed.

End ExpectedEstimate.

Section DrawFacts.
Variable F : realFieldType.
Implicit Types (p : F) (ps : seq F).




End DrawFacts.

Section GridFacts.
Variable F : realFieldType.
Variable K : nat.
Hypothesis K_gt1 : (1 < K)%N.

(** searchsorted puts a level behind itself: with distinct levels the
    position of the level j is j + 1. *)
Lemma searchsorted_level (mn mx : F) j :
  mn < mx -> (j < K)%N ->
  searchsorted_right (level_seq K mn mx) (level_at K mn mx j) = j.+1.
Proof.
move=> lt_m lt_j; have le_m := ltW lt_m.
have /andP[v1 v2] := level_at_range K_gt1 le_m lt_j.
have [/andP[_ cK] _ hi _] := searchsorted_bounds K_gt1 v1 v2.
set c := searchsorted_right _ _ in cK hi *.
apply/eqP; rewrite eqn_leq; apply/andP; split; last first.
  rewrite ltnNge; apply/negP => le_cj.
  have ltc : (c < K)%N := leq_ltn_trans le_cj lt_j.
  by move: (hi ltc); rewrite nth_level_seq // ltNge level_at_mono.
have [lt_j1|] := ltnP j.+1 K; last by move=> /(leq_trans cK).
rewrite leqNgt; apply/negP => lt_c.
have := @before_find _ 0 (fun x => level_at K mn mx j < x) _ _ lt_c.
by rewrite nth_level_seq // level_at_smono.
Qed.

End GridFacts.

Section RevertFacts.
Variable F : realFieldType.
Implicit Types (dec : seq F) (numels : seq nat).

(** The loop of the decoder raises when dec is too short for the layers. *)
Lemma revert_raise numels dec ptr :
  (ptr <= size dec)%N -> (size dec < ptr + sumn numels)%N ->
  revert numels dec ptr = Raise RuntimeError.
Proof.
elim: numels ptr => [|sz rest IH] ptr le_ptr /=.
  by rewrite addn0 ltnNge le_ptr.
rewrite size_take_min size_drop addnA => lt_sz.
have [le_sz|gt_sz] := leqP sz (size dec - ptr).
  have le2 : (ptr + sz <= size dec)%N by rewrite -leq_subRL.
  by rewrite eqxx IH.
by rewrite ltn_eqF.
Qed.

End RevertFacts.

Section RangeFacts.
Variable F : realFieldType.
Variable flat : seq F.
Let L := size flat.
Let r := (L %% 1024)%N.

(** Outside the range 256 < L mod 1024 <= 512 the padded remainder has not
    512 elements. *)
Lemma params512_size : (size (params512 flat) == 512%N) = (256 < r <= 512)%N.
Proof.
have [r0|r_neq0] := eqVneq r 0%N; last first.
  by have [_ ->] := params512_pos r_neq0; rewrite -pow2_512.
rewrite (params512_zero r0) r0 /= size_cat size_nseq /pad_count -/L.
have [L0|L_neq0] := eqVneq L 0%N; first by rewrite L0.
have le_up : (L <= 2 ^ up_log 2 L)%N by exact: up_logP.
apply/negbTE; rewrite subnKC // neq_ltn; apply/orP; right.
apply: leq_trans le_up; apply: (@leq_trans 1024) => //.
by apply: dvdn_leq; rewrite ?lt0n // /dvdn -/r r0.
Qed.

End RangeFacts.

Section DrawsOfGetParameters.
Variable F : realFieldType.
Variable K : nat.
Variables (R1024 : 'M[F]_1024) (R512 : 'M[F]_512).
Hypothesis K_gt1 : (1 < K)%N.





End DrawsOfGetParameters.

Section NormFacts.
Variable F : realFieldType.
Variable n : nat.
Variable R : 'M[F]_n.
Hypothesis orth : R *m R^T = 1%:M.






End NormFacts.

Section DictFacts.
Variable A : Type.
Implicit Types (d : dict A) (k : string) (v : A).

Lemma dict_keys_cat d1 d2 : dict_keys (d1 ++ d2) = dict_keys d1 ++ dict_keys d2.
Proof. exact: map_cat. Qed.

Lemma dict_set_new d k v :
  k \notin dict_keys d -> dict_set d k v = d ++ [:: (k, v)].
Proof.
elim: d => [//|kv d IH] /=; rewrite inE negb_or eq_sym => /andP[/negbTE -> nin].
by rewrite IH.
Qed.

Lemma foldl_dict_set d (items : seq (string * A)) :
  uniq (dict_keys d ++ [seq kv.1 | kv <- items]) ->
  foldl (fun d kv => dict_set d kv.1 kv.2) d items = d ++ items.
Proof.
elim: items d => [|kv items IH] d /=; first by rewrite !cats0.
rewrite -cat1s catA cat_uniq => /and3P[ud nh ui].
have nin : kv.1 \notin dict_keys d.
  by move: ud; rewrite cat_uniq /= orbF => /and3P[].
rewrite dict_set_new // IH -?catA -?surjective_pairing //.
by rewrite dict_keys_cat /= cat_uniq ud nh ui.
Qed.

(** A dict built from items with distinct keys lists the items. *)
Lemma dict_of_items_uniq (items : seq (string * A)) :
  uniq [seq kv.1 | kv <- items] -> dict_of_items items = items.
Proof. by move=> u; rewrite /dict_of_items foldl_dict_set. Qed.

Lemma dict_get_mem d k : k \in dict_keys d -> dict_get d k.
Proof.
elim: d => [//|kv d IH] /=; rewrite inE eq_sym.
by case: eqP => //= _ /IH.
Qed.

Lemma notin_keys d k :
  k \notin dict_keys d -> all (fun kv => kv.1 != k) d.
Proof.
elim: d => [//|kv d IH] /=; rewrite inE negb_or eq_sym => /andP[-> /IH].
by [].
Qed.

Lemma keys_zip (B : Type) (ks : seq string) (vs : seq B) :
  [seq kv.1 | kv <- zip ks vs] = take (size vs) ks.
Proof. by elim: ks vs => [|k ks IH] [|v vs] //=; rewrite IH. Qed.

(** Looking up the i-th of distinct keys in the keys zipped with values. *)
Lemma dict_get_zip (ks : seq string) (vs : seq A) k0 v0 i :
  uniq ks -> (i < size ks)%N -> (i < size vs)%N ->
  dict_get (zip ks vs) (nth k0 ks i) = Some (nth v0 vs i).
Proof.
elim: ks vs i => [//|k ks IH] [//|v vs] [|i] /=; first by rewrite eqxx.
move=> /andP[nin u]; rewrite !ltnS => lt_k lt_v.
have [kE|_] := eqVneq; last exact: IH.
by move: nin; rewrite kE mem_nth.
Qed.

End DictFacts.

Section SetParametersFacts.
Variable F : realFieldType.
Implicit Types (model sd : state_dict F) (parameters : seq (ndarray F)).

Lemma eq_all_mapM (A B : Type) (P : A -> bool) (f g : A -> outcome B) (s : seq A) :
  (forall x, P x -> f x = g x) -> all P s -> mapM f s = mapM g s.
Proof.
by move=> fg; elim: s => [//|x s IH] /= /andP[/fg -> /IH ->].
Qed.

Lemma mapM_load_nil model :
  mapM (load_entry [::]) model = Ok [seq (kv, true) | kv <- model].
Proof. by elim: model => [//|kv model IH] /=; rewrite /load_entry /= IH. Qed.

(** The entries of the module against the inputs zipped with its keys: the
    first ones get their input or note a size mismatch, the ones beyond the
    inputs note a missing key. *)
Lemma mapM_load model parameters :
  uniq (dict_keys model) -> all (fun kv => shp kv.2 != [::]) model ->
  mapM (load_entry (zip (dict_keys model) parameters)) model =
  Ok ([seq (if shp ka.2 != shp ka.1.2 then (ka.1, true)
            else ((ka.1.1, ka.2), false)) | ka <- zip model parameters]
      ++ [seq (kv, true) | kv <- drop (size parameters) model]).
Proof.
elim: model parameters => [|kv model IH] [|a parameters] //.
  by move=> _ _; rewrite mapM_load_nil.
rewrite [uniq _]/= [all _ _]/= => /andP[nin u] /andP[n0 a0].
rewrite [dict_keys _]/= [zip (_ :: _) _]/= [mapM _ _]/=.
rewrite {1}/load_entry /= eqxx /input_param (negbTE n0) /=.
have -> : mapM (load_entry ((kv.1, a) :: zip (dict_keys model) parameters)) model
        = mapM (load_entry (zip (dict_keys model) parameters)) model.
  apply: (@eq_all_mapM _ _ (fun kv' => kv'.1 != kv.1)).
    by move=> kv' ne; rewrite /load_entry /= eq_sym (negbTE ne).
  exact: notin_keys.
by rewrite IH //; case: ifP.
Qed.

(** The parameters fit the model: there is one for every entry, with the
    shape of the entry. *)
Let fits model parameters : bool :=
  (size model <= size parameters)%N &&
  ([seq shp kv.2 | kv <- model] ==
   [seq shp a | a <- take (size model) parameters]).

Lemma loaded_flags model parameters :
  let L := [seq (if shp ka.2 != shp ka.1.2 then (ka.1, true)
                 else ((ka.1.1, ka.2), false)) | ka <- zip model parameters]
           ++ [seq (kv, true) | kv <- drop (size parameters) model] in
  has snd L = ~~ fits model parameters /\
  (fits model parameters ->
   [seq l.1 | l <- L] = zip (dict_keys model) (take (size model) parameters)).
Proof.
rewrite /fits; elim: model parameters => [|kv model IH] [|a parameters] //=.
have [IH1 IH2] := IH parameters; rewrite ltnS eqseq_cons [shp kv.2 == _]eq_sym.
have [eq_sh|ne] /= := eqVneq (shp a) (shp kv.2); last by rewrite andbF.
by rewrite IH1; split=> // ok; rewrite IH2.
Qed.

(** set_parameters returns exactly when the parameters fit, with the keys of
    the model on the leading parameters. *)
Lemma set_parametersE model parameters :
  uniq (dict_keys model) -> all (fun kv => shp kv.2 != [::]) model ->
  set_parameters model parameters =
  if fits model parameters
  then Ok (zip (dict_keys model) (take (size model) parameters))
  else Raise RuntimeError.
Proof.
move=> u n0; rewrite /set_parameters dict_of_items_uniq.
  by rewrite keys_zip take_uniq.
rewrite /load_state_dict mapM_load // [Ok _ >>= _]/=.
have -> : [seq k <- dict_keys (zip (dict_keys model) parameters)
          | ~~ dict_get model k] = [::].
  apply/eqP; rewrite -[_ == _]negbK -has_filter; apply/hasPn => k.
  by rewrite /dict_keys keys_zip negbK => /mem_take /dict_get_mem.
have [-> H] := loaded_flags model parameters.
rewrite orbF; have [ok|nok] /= := boolP (fits model parameters); last by [].
by rewrite H.
Qed.

End SetParametersFacts.

Section ValFacts.
Variable F : realFieldType.
Variable X : Type.
Variable forward : state_dict F -> X -> num_classes.-tuple F.
Variable cross_entropy : num_classes.-tuple F -> 'I_num_classes -> F.
Implicit Types (model : state_dict F) (d : seq (sample X)) (b : nat).

(** The batches hold the samples of the dataset, in order. *)
Lemma flatten_batches d b : flatten (batches (d, b)) = d.
Proof.
rewrite /batches /=; apply: reshapeKr; rewrite sumn_cat sumn_nseq mulnC.
rewrite [X in (X <= _)%N](divn_eq (size d) b) leq_add2l.
by case: ifP => [/eqP ->|_] //=; rewrite addn0.
Qed.

Lemma foldl_pair (A : Type) (f : A -> F) (g : A -> nat) (s : seq A) l0 c0 :
  foldl (fun lc x => (lc.1 + f x, (lc.2 + g x)%N)) (l0, c0) s =
  (l0 + foldr (fun x acc => f x + acc) 0 s, (c0 + sumn [seq g x | x <- s])%N).
Proof.
elim: s l0 c0 => [|x s IH] l0 c0 /=; first by rewrite addr0 addn0.
by rewrite IH addrA addnA.
Qed.

(** val counts the samples classified as labelled, whatever the batches,
    and adds the mean losses of the batches. *)
Lemma valE model d b :
  val forward cross_entropy model (d, b) =
  if size d == 0%N then Raise ZeroDivisionError
  else Ok (foldr (fun batch acc => loss_fn forward cross_entropy model batch + acc)
                 0 (batches (d, b)),
           (count (correct forward model) d)%:R / (size d)%:R).
Proof.
rewrite /val foldl_pair /= add0r add0n -count_flatten.
by rewrite [flatten _](flatten_batches d b).
Qed.

(** Batches of one size: the sum of their mean losses is the sum of the
    losses of the samples over that size. *)
Lemma loss_full model (ss : seq (seq (sample X))) b :
  all (fun s => size s == b) ss ->
  foldr (fun batch acc => loss_fn forward cross_entropy model batch + acc) 0 ss =
  foldr (fun xy acc => cross_entropy (forward model xy.1) xy.2 + acc) 0
        (flatten ss) / b%:R.
Proof.
elim: ss => [_|s ss IH] /=; first by rewrite mul0r.
move=> /andP[/eqP sz /IH ->]; rewrite /loss_fn sz -mulrDl; congr (_ / _).
by rewrite foldr_cat; elim: s {sz} => [|xy s IHs] /=; rewrite ?add0r // -addrA IHs.
Qed.

Lemma accuracy_range (c n : nat) :
  (c <= n)%N -> (0 < n)%N ->
  (0 <= (c%:R / n%:R : F) <= 1) /\ (((c%:R / n%:R : F) == 1) = (c == n)).
Proof.
move=> le_c n_gt0; have n0 : 0 < n%:R :> F by rewrite ltr0n.
split; first by rewrite divr_ge0 ?ler0n // ler_pdivrMr // mul1r ler_nat.
by rewrite -(eqr_nat F) -[RHS](inj_eq (mulIf (invr_neq0 (lt0r_neq0 n0)))) divff ?lt0r_neq0.
Qed.

End ValFacts.

Section SumsqFacts.
Variable F : realFieldType.
Implicit Types (s t a b : seq F).






End SumsqFacts.

Section RowFacts.
Variable F : realFieldType.
Variable n : nat.
Implicit Types (R : 'M[F]_n) (X : seq (seq F)).


End RowFacts.

Section StackError.
Variable F : realFieldType.
Variable K : nat.
Hypothesis K_gt1 : (1 < K)%N.
Variable n : nat.
Variable R : 'M[F]_n.
Hypothesis orth : R *m R^T = 1%:M.
Variables mn mx : F.

Let B : F := 3 / 4 * ((mx - mn) / (K%:R - 1)).
Let rot (x : seq F) : seq F := seq_of_col (R *m col_of_seq n x).



End StackError.

Section ReshapeFacts.
Variables A B : Type.



End ReshapeFacts.

Section AffineFacts.
Variable F : realFieldType.
Variable K : nat.
Hypothesis K_gt1 : (1 < K)%N.
Variables a c : F.
Hypothesis a_gt0 : 0 < a.

Let f (v : F) : F := a * v + c.











End AffineFacts.

(* ====================================================================== *)
(*  The claims                                                            *)
(* ====================================================================== *)




(** C2.  The decoder reconstructs from an encoded element (bit, lo, hi) the
    estimate (3 * hi + lo) / 4 when the bit is 1 and (3 * lo + hi) / 4 when
    the bit is 0, in the stacked chunks of 1024 and in the chunk of 512
    alike. *)
Theorem C2_estimates (F : realFieldType) (eb1024 : seq (seq F) * seq (seq (F * F)))
    (eb512 : seq F * seq (F * F)) :
  let formula (bit : F) (br : F * F) (est : F) :=
    (bit = 1 -> est = (3 * br.2 + br.1) / 4) /\
    (bit = 0 -> est = (3 * br.1 + br.2) / 4) in
  (forall r i,
     size eb1024.1 = size eb1024.2 -> (r < size eb1024.2)%N ->
     size (nth [::] eb1024.1 r) = size (nth [::] eb1024.2 r) ->
     (i < size (nth [::] eb1024.2 r))%N ->
     formula (nth 0 (nth [::] eb1024.1 r) i)
             (nth (0, 0) (nth [::] eb1024.2 r) i)
             (nth 0 (nth [::] (dec1024 eb1024) r) i)) /\
  (forall i,
     size eb512.1 = size eb512.2 -> (i < size eb512.2)%N ->
     formula (nth 0 eb512.1 i) (nth (0, 0) eb512.2 i)
             (nth 0 (dec512 eb512) i)).
Proof.
have one encs bs i : size encs = size bs -> (i < size bs)%N ->
    (nth 0 encs i = 1 ->
       nth 0 (decode encs bs) i =
       (3 * (nth (0, 0) bs i).2 + (nth (0, 0) bs i).1) / 4) /\
    (nth 0 encs i = 0 ->
       nth 0 (decode encs bs) i =
       (3 * (nth (0, 0) bs i).1 + (nth (0, 0) bs i).2) / 4).
  move=> sz lt_i; rewrite nth_decode //; split=> ->; first by rewrite eqxx.
  by rewrite eq_sym oner_eq0.
case: eb1024 eb512 => [e1 b1] [e2 b2] /=; split=> [r i sz1 lt_r sz lt_i|i sz lt_i].
- rewrite /dec1024 /= (nth_map ([::], [::])) ?size_zip ?sz1 ?minnn //.
  by rewrite nth_zip //=; apply: one.
- exact: one.
Qed.

(** C2 at one stacked chunk and one single chunk of two elements. *)
Lemma C2_estimates_witness :
  nth 0 (nth [::] (dec1024 ([:: [:: 1; 0]], [:: [:: (0, 1); (1, 2)]])) 0) 1
    = (3 * 1 + 2) / 4 :> rat /\
  nth 0 (dec512 ([:: 1; 0], [:: (2, 3); (3, 3)])) 0 = (3 * 3 + 2) / 4 :> rat.
Proof.
have [H1 H2] := @C2_estimates rat ([:: [:: 1; 0]], [:: [:: (0, 1); (1, 2)]])
                                  ([:: 1; 0], [:: (2, 3); (3, 3)]).
split.
- by have [_] := H1 0%N 1%N (erefl _) isT (erefl _) isT; apply.
- by have [+ _] := H2 0%N (erefl _) isT; apply.
Defined.









(** C6.  For an orthogonal matrix R (R * R^T = 1) torch.linalg.inv returns
    R^T, and rotating by R and then by the inverse gives back the input,
    both for chunks stacked as rows, where the products are (R * X^T)^T, and
    for one chunk as a column.  Nothing of the quantization enters. *)
Theorem C6_rotation (F : realFieldType) (n : nat) (R : 'M[F]_n) :
  R *m R^T = 1%:M ->
  [/\ linalg_inv R = Ok R^T,
      forall X, all (fun r => size r == n) X ->
        (matmul_T R X >>= fun Y =>
         linalg_inv R >>= fun Ri => matmul_T Ri Y) = Ok X
    & forall x, size x = n ->
        (matmul_vec R x >>= fun y =>
         linalg_inv R >>= fun Ri => matmul_vec Ri y) = Ok x].
Proof.
move=> orth; have uR := orthogonal_unit orth; split.
- exact: orthogonal_inv.
- by move=> X; apply: rotate_rowsK.
- by move=> x; apply: rotate_vecK.
Qed.

(** C6 at the identity matrix of size 2. *)
Lemma C6_rotation_witness :
  (matmul_T (1%:M : 'M[rat]_2) [:: [:: 1; 2]; [:: 3; 4]] >>= fun Y =>
   linalg_inv (1%:M : 'M[rat]_2) >>= fun Ri => matmul_T Ri Y) =
    Ok [:: [:: 1; 2]; [:: 3; 4]] /\
  (matmul_vec (1%:M : 'M[rat]_2) [:: 1; 2] >>= fun y =>
   linalg_inv (1%:M : 'M[rat]_2) >>= fun Ri => matmul_vec Ri y) = Ok [:: 1; 2].
Proof.
have orth : (1%:M : 'M[rat]_2) *m (1%:M)^T = 1%:M by rewrite trmx1 mulmx1.
have [_ Hrows Hvec] := C6_rotation orth.
split; first exact: (Hrows [:: [:: 1; 2]; [:: 3; 4]] isT).
exact: (Hvec [:: 1; 2] (erefl _)).
Defined.

(** C7, as the client computes it.  The vector is cut into floor(L / 1024)
    rows of 1024 elements holding its first 1024 * floor(L / 1024) elements;
    a non-empty remainder of r elements is followed by zeros up to the
    smallest power of two that is at least r, which is 512 exactly when
    256 < r <= 512; when 1024 divides L the remainder slice is the whole
    vector.  In every case the loop of the decoder, applied to the rows and
    the padded remainder in this order, returns exactly the layers: the
    padding and whatever follows the first L elements is dropped. *)
Theorem C7_roundtrip (F : realFieldType) (model : seq (seq F)) :
  let flat := flatten model in
  let L := size flat in
  let q := (L %/ 1024)%N in
  let r := (L %% 1024)%N in
  exists rows,
    [/\ params1024 flat = Ok rows,
        flatten rows = take (q * 1024) flat /\
        ((1024 <= L)%N -> shape rows = nseq q 1024),
        r != 0%N ->
          [/\ params512 flat =
                drop (q * 1024) flat ++ nseq (2 ^ up_log 2 r - r) 0,
              size (params512 flat) = (2 ^ up_log 2 r)%N,
              (r <= 2 ^ up_log 2 r)%N /\
              (forall j, (r <= 2 ^ j)%N -> (up_log 2 r <= j)%N)
            & (size (params512 flat) == 512%N) = (256 < r <= 512)%N],
        r = 0%N -> params512 flat = flat ++ nseq (pad_count L) 0
      & revert (shape model) (flatten rows ++ params512 flat) 0 = Ok model].
Proof.
move=> flat L q r.
have [rows [Erows fl]] := params1024_flatten flat.
exists rows; split=> //.
- split=> // leL; have [rows' [Erows' sh _]] := params1024_full leL.
  by move: Erows; rewrite Erows' => -[<-].
- move=> r_neq0; have [E sz] := params512_pos r_neq0.
  split=> //; first by split; [exact: up_logP | move=> j; exact: up_log_min].
  by rewrite sz -pow2_512.
- exact: params512_zero.
have [pad ->] : exists pad, flatten rows ++ params512 flat = flat ++ pad.
  rewrite fl -/L -/q; case: (eqVneq r 0%N) => [r0|r_neq0].
    rewrite (params512_zero r0); exists (flat ++ nseq (pad_count L) 0).
    by rewrite take_divisible.
  have [-> _] := params512_pos r_neq0.
  by exists (nseq (2 ^ up_log 2 r - r) 0); rewrite catA cat_take_drop.
rewrite revert_ok ?add0n ?size_cat -?size_flatten ?leq_addr // drop0.
by rewrite reshape_cat_prefix ?flattenK // size_flatten.
Qed.

(** C7 at a vector of 1124 elements in two layers. *)
Lemma C7_roundtrip_witness :
  let model : seq (seq rat) := [:: nseq 1024 0; nseq 100 0] in
  exists rows,
    [/\ params1024 (flatten model) = Ok rows,
        size (params512 (flatten model)) = (2 ^ up_log 2 100)%N
      & revert (shape model) (flatten rows ++ params512 (flatten model)) 0 =
        Ok model].
Proof.
move=> model; have [rows [Erows _ H _ Hrev]] := @C7_roundtrip rat model.
exists rows; split; [exact: Erows | | exact: Hrev].
by case: (H isT).
Defined.

(** Against C7 as stated: a remainder of 100 elements is padded to 128, not
    to the catalog size 512. *)
Lemma C7_counterexample :
  let flat : seq rat := nseq 1124 0 in
  [/\ (size flat %% 1024 = 100)%N, (100 <= 512)%N
    & size (params512 flat) = 128%N].
Proof. by split; vm_compute. Qed.

(** C8, with the mean the decoder gives.  Chunk [0, 1, 2, 3], K = 4, rotation
    by the identity: the levels are [0, 1, 2, 3]; the element 0 has r = 0,
    pair (0, 1), probability 0, bit 0 and decodes to 1/4; the element 3 has
    r = 3, pair (3, 3), probability 0, bit 0 and decodes to 3.  A value 3/2
    among levels [0, 1, 2, 3] has pair (1, 2) and probability 1/2, and the
    expectation of its decoded estimate is 1/2 * 7/4 + 1/2 * 5/4 = 3/2. *)
Theorem C8_scenario :
  let chunk : seq rat := [:: 0; 1; 2; 3] in
  let bs : seq (rat * rat) := [:: (0, 1); (1, 2); (2, 3); (3, 3)] in
  let chunk' : seq rat := [:: 0; 3 / 2; 3] in
  let bs' : seq (rat * rat) := [:: (0, 1); (1, 2); (3, 3)] in
  [/\ matmul_vec (1%:M : 'M_4) chunk = Ok chunk /\
      levels 4 chunk = Ok [:: 0; 1; 2; 3],
      ids [:: 0; 1; 2; 3] chunk = [:: 0; 1; 2; 3] /\
      probs chunk bs = [:: 0; 0; 0; 0],
      exists d,
        [/\ encoder 4 chunk = Ok (d, bs),
            prob (pred1 [:: 0; 0; 0; 0]) d = 1,
            decode [:: 0; 0; 0; 0] bs = [:: 1 / 4; 5 / 4; 9 / 4; 3],
            expect (fun e => nth 0 (decode e bs) 0) d = 1 / 4
          & expect (fun e => nth 0 (decode e bs) 3) d = 3],
      levels 4 chunk' = Ok [:: 0; 1; 2; 3] /\
      probs chunk' bs' = [:: 0; 1 / 2; 0]
    & exists d',
        [/\ encoder 4 chunk' = Ok (d', bs'),
            expect (fun e => nth 0 e 1) d' = 1 / 2
          & expect (fun e => nth 0 (decode e bs') 1) d' = 3 / 2]].
Proof.
move=> chunk bs chunk' bs'; split.
- split; last by congr Ok; apply/eqP; vm_compute.
  by rewrite /matmul_vec eqxx mul1mx col_of_seqK.
- by split; apply/eqP; vm_compute.
- exists (torch_bernoulli [:: 0; 0; 0; 0]); split.
  + by vm_compute; congr Ok; apply/eqP; vm_compute.
  + by apply/eqP; vm_compute.
  + by apply/eqP; vm_compute.
  + by apply/eqP; vm_compute.
  + by apply/eqP; vm_compute.
- by split; [congr Ok|]; apply/eqP; vm_compute.
- exists (torch_bernoulli [:: 0; 1 / 2; 0]); split.
  + by vm_compute; congr Ok; apply/eqP; vm_compute.
  + by apply/eqP; vm_compute.
  + by apply/eqP; vm_compute.
Qed.

(** Against C8 as stated: the expectation of the estimate decoded for 3/2 is
    3/2, not 7/4. *)
Lemma C8_counterexample :
  let chunk' : seq rat := [:: 0; 3 / 2; 3] in
  let bs' : seq (rat * rat) := [:: (0, 1); (1, 2); (3, 3)] in
  exists d',
    [/\ encoder 4 chunk' = Ok (d', bs'),
        expect (fun e => nth 0 e 1) d' = 1 / 2,
        expect (fun e => nth 0 (decode e bs') 1) d' = 3 / 2
      & 3 / 2 != 7 / 4 :> rat].
Proof.
move=> chunk' bs'; exists (torch_bernoulli [:: 0; 1 / 2; 0]); split.
- by vm_compute; congr Ok; apply/eqP; vm_compute.
- by apply/eqP; vm_compute.
- by apply/eqP; vm_compute.
- by vm_compute.
Qed.







(* ====================================================================== *)
(*  Further properties of the codec and of the client                     *)
(* ====================================================================== *)



(** X2.  The decoder is biased: on a non-empty tensor, K >= 2, the expectation
    of the estimate decoded for an element v with pair (lo, hi) is the mean of
    v and the midpoint (lo + hi) / 2 of the pair.  It equals v exactly when v
    is that midpoint, and differs from v by at most (hi - lo) / 4. *)
Theorem X2_bias (F : realFieldType) (K : nat) (params : seq F) :
  (1 < K)%N -> params != [::] ->
  exists d bs,
    encoder K params = Ok (d, bs) /\
    forall i, (i < size params)%N ->
      let v := nth 0 params i in
      let lo := (nth (0, 0) bs i).1 in
      let hi := (nth (0, 0) bs i).2 in
      let m := expect (fun e => nth 0 (decode e bs) i) d in
      [/\ m = (v + (lo + hi) / 2) / 2,
          (m == v) = (v == (lo + hi) / 2)
        & `|m - v| <= (hi - lo) / 4].
Proof.
move=> K_gt1 ne.
have [mn [mx [Emn Emx _ bnd /= [_ Eenc]]]] := encoderE K_gt1 ne.
do 2!eexists; split; first exact: Eenc.
move=> i lt_i; have /andP[le_mn le_mx] := bnd _ (mem_nth 0 lt_i).
rewrite expect_decode ?size_map // !(nth_map 0) //.
have [lo_v v_hi _ _] := bracket_bounds K_gt1 le_mn le_mx.
by case: (bracket K _ _) lo_v v_hi => lo hi /=; apply: mean_estimate.
Qed.

(** X2 at the tensor [0, 3/2, 3] with four levels. *)
Lemma X2_bias_witness :
  let params : seq rat := [:: 0; 3 / 2; 3] in
  exists d bs,
    encoder 4 params = Ok (d, bs) /\
    expect (fun e => nth 0 (decode e bs) 1) d =
    (nth 0 params 1 + ((nth (0, 0) bs 1).1 + (nth (0, 0) bs 1).2) / 2) / 2.
Proof.
move=> params.
have [d [bs [Eenc H]]] := @X2_bias rat 4 params isT isT.
exists d, bs; split; first exact: Eenc.
by case: (H 1%N isT).
Defined.





(** X5.  A value on a level is not reproduced, unless the level is the last
    one: on a tensor with mn < mx, K >= 2, an element equal to the level b[j],
    j < K - 1, gets the pair (b[j], b[j + 1]) and the probability 0, its bit is
    0 with probability 1, and with the bit 0 it decodes to a quarter of the
    distance between two levels above itself. *)
Theorem X5_grid_point (F : realFieldType) (K : nat) (params : seq F) :
  (1 < K)%N -> params != [::] ->
  exists mn mx b d bs,
    [/\ torch_min params = Ok mn /\ torch_max params = Ok mx,
        levels K params = Ok b,
        encoder K params = Ok (d, bs)
      & forall i j, (i < size params)%N -> (j.+1 < K)%N -> mn < mx ->
          nth 0 params i = nth 0 b j ->
          [/\ nth (0, 0) bs i = (nth 0 b j, nth 0 b j.+1),
              nth 0 (probs params bs) i = 0,
              prob (fun e => nth 0 e i == 0) d = 1
            & forall e, size e = size params -> nth 0 e i = 0 ->
                nth 0 (decode e bs) i =
                nth 0 params i + (mx - mn) / (K%:R - 1) / 4]].
Proof.
move=> K_gt1 ne.
have [mn [mx [Emn Emx _ bnd /= [Eb Eenc]]]] := encoderE K_gt1 ne.
exists mn, mx; do 3!eexists; split; [by [] | exact: Eb | exact: Eenc |].
move=> i j lt_i lt_j1 lt_m; have lt_j := ltnW lt_j1.
rewrite !nth_level_seq // => vE.
have brE : bracket K (level_seq K mn mx) (nth 0 params i) =
           (level_at K mn mx j, level_at K mn mx j.+1).
  by rewrite vE /bracket searchsorted_level //= (ltn_eqF lt_j1) !nth_level_seq.
have lt_lv : level_at K mn mx j < level_at K mn mx j.+1 by exact: level_at_smono.
have pE : nth 0 [seq prob_in v (bracket K (level_seq K mn mx) v) | v <- params] i
          = 0.
  by rewrite (nth_map 0) // brE /prob_in /= vE subrr mul0r; case: ifP.
split.
- by rewrite (nth_map 0).
- by rewrite probsE.
- rewrite /prob (marginal (fun x => if x == 0 then 1 else 0)) ?size_map //.
  by rewrite pE expect_bernoulli mulr0 add0r subr0 eqxx mul1r.
move=> e sz e0; rewrite nth_decode ?size_map // (nth_map 0) // brE /= e0.
rewrite eq_sym oner_eq0 vE -(level_at_step K_gt1 mn mx j).
by field.
Qed.

(** X5 at the element 1 of the tensor [0, 1, 3], the level b[1] of four. *)
Lemma X5_grid_point_witness :
  let params : seq rat := [:: 0; 1; 3] in
  exists b d bs,
    [/\ levels 4 params = Ok b,
        encoder 4 params = Ok (d, bs)
      & nth (0, 0) bs 1 = (nth 0 b 1, nth 0 b 2)].
Proof.
move=> params.
have [mn [mx [b [d [bs [[Emn Emx] Eb Eenc H]]]]]] :=
  @X5_grid_point rat 4 params isT isT.
exists b, d, bs; split; [exact: Eb | exact: Eenc |].
have lt_m : mn < mx by case: Emn => <-; case: Emx => <-; vm_compute.
have vE : nth 0 params 1 = nth 0 b 1 by case: Eb => <-; apply/eqP; vm_compute.
by case: (H 1%N 1%N isT isT lt_m vE).
Defined.

(** X6.  The loop that cuts the decoded vector into the layers returns exactly
    when the vector has at least as many elements as the layers together: it
    then returns layers of the given sizes that hold the leading elements in
    order and ignores the rest; on a shorter vector reshape raises
    RuntimeError. *)
Theorem X6_revert (F : realFieldType) (numels : seq nat) (dec : seq F) :
  revert numels dec 0 =
    (if (sumn numels <= size dec)%N then Ok (reshape numels dec)
     else Raise RuntimeError) /\
  ((sumn numels <= size dec)%N ->
     shape (reshape numels dec) = numels /\
     flatten (reshape numels dec) = take (sumn numels) dec).
Proof.
split=> [|le_sz].
  case: leqP => [le_sz|lt_sz]; first by rewrite revert_ok ?add0n // drop0.
  by rewrite revert_raise.
split; first exact: reshapeKl.
by rewrite reshape_take // reshapeKr // size_take_min (minn_idPl le_sz).
Qed.

(** X7.  get_parameters raises RuntimeError, whatever the level count and the
    rotation matrices, on every model whose number L of parameters is below
    1024 or has a remainder L mod 1024 outside 256 < . <= 512: the matrix
    products of the rotation do not fit. *)
Theorem X7_out_of_range (F : realFieldType) (K : nat)
    (R1024 : 'M[F]_1024) (R512 : 'M[F]_512) (model : seq (seq F)) :
  let L := size (flatten model) in
  ~~ ((1024 <= L)%N && (256 < L %% 1024 <= 512)%N) ->
  get_parameters K R1024 R512 model = Raise RuntimeError.
Proof.
move=> L; rewrite /get_parameters; set flat := flatten model in L *.
have [leL /= nrng|ltL _] := leqP 1024 L; last first.
  by rewrite params1024_small.
have [rows [-> sh _]] /= := params1024_full leL.
have [rot -> _] /= := matmul_T_shape R1024 sh.
by rewrite /matmul_vec params512_size (negbTE nrng).
Qed.

(** X7 at a model of 2048 parameters, a multiple of 1024. *)
Lemma X7_out_of_range_witness :
  get_parameters 64 (1%:M : 'M[rat]_1024) (1%:M : 'M[rat]_512)
    [:: nseq 2048 0] = Raise RuntimeError.
Proof. exact: (@X7_out_of_range rat 64 1%:M 1%:M [:: nseq 2048 0] isT). Defined.





(** X10.  set_parameters, round trip.  For a model with distinct keys and no
    0-dimensional layer (as LeNet5), given at least one array per layer with
    the first arrays of the shapes of the layers, set_parameters returns; the
    new state has the keys of the model in their order and holds exactly the
    leading arrays, so that looking up the i-th key gives the i-th array; the
    arrays beyond the layers are ignored. *)
Theorem X10_set_parameters (F : realFieldType) (model : state_dict F)
    (parameters : seq (ndarray F)) :
  uniq (dict_keys model) -> all (fun kv => shp kv.2 != [::]) model ->
  (size model <= size parameters)%N ->
  [seq shp kv.2 | kv <- model] =
    [seq shp a | a <- take (size model) parameters] ->
  exists2 model', set_parameters model parameters = Ok model'
    & [/\ dict_keys model' = dict_keys model,
          [seq kv.2 | kv <- model'] = take (size model) parameters
        & forall i, (i < size model)%N ->
            dict_get model' (nth EmptyString (dict_keys model) i) =
            Some (nth (Ndarray [::] [::]) parameters i)].
Proof.
move=> u n0 le_sz sh; rewrite set_parametersE // le_sz sh eqxx /=.
have szk : size (dict_keys model) = size model by rewrite size_map.
have szt : size (take (size model) parameters) = size model.
  by rewrite size_take_min (minn_idPl le_sz).
eexists; first by reflexivity.
split.
- by rewrite /dict_keys keys_zip szt -/(dict_keys model) -szk take_size.
- by rewrite -/(unzip2 _) unzip2_zip // szt szk.
move=> i lt_i; rewrite (dict_get_zip _ (Ndarray [::] [::])) ?szk ?szt //.
by rewrite nth_take.
Qed.

(** X10 at a model of two layers and three arrays. *)
Lemma X10_set_parameters_witness :
  let model : state_dict rat :=
    [:: ("weight"%string, Ndarray [:: 1; 2]%N [:: 0; 0]);
        ("bias"%string, Ndarray [:: 1%N] [:: 0])] in
  let parameters : seq (ndarray rat) :=
    [:: Ndarray [:: 1; 2]%N [:: 1; 2]; Ndarray [:: 1%N] [:: 3];
        Ndarray [:: 1%N] [:: 4]] in
  exists2 model', set_parameters model parameters = Ok model'
    & dict_keys model' = dict_keys model.
Proof.
move=> model parameters.
have [model' E [ks _ _]] :=
  @X10_set_parameters rat model parameters isT isT isT (erefl _).
by exists model'; [exact: E | exact: ks].
Defined.

(** X11.  set_parameters, errors.  For a model with distinct keys and no
    0-dimensional layer, set_parameters raises RuntimeError when there are
    fewer arrays than layers (zip stops early and the strict load misses
    keys), and when one of the leading arrays has not the shape of its
    layer. *)
Theorem X11_set_parameters_raises (F : realFieldType) (model : state_dict F)
    (parameters : seq (ndarray F)) :
  uniq (dict_keys model) -> all (fun kv => shp kv.2 != [::]) model ->
  (size parameters < size model)%N \/
  [seq shp kv.2 | kv <- model] <>
    [seq shp a | a <- take (size model) parameters] ->
  set_parameters model parameters = Raise RuntimeError.
Proof.
move=> u n0 bad; rewrite set_parametersE //.
case: bad => [lt_sz|ne]; first by rewrite leqNgt lt_sz.
by case: eqP => [/ne|_] //; rewrite andbF.
Qed.

(** X11 at a model of two layers and one array. *)
Lemma X11_set_parameters_raises_witness :
  let model : state_dict rat :=
    [:: ("weight"%string, Ndarray [:: 1; 2]%N [:: 0; 0]);
        ("bias"%string, Ndarray [:: 1%N] [:: 0])] in
  set_parameters model [:: Ndarray [:: 1; 2]%N [:: 1; 2]] = Raise RuntimeError.
Proof.
move=> model.
exact: (@X11_set_parameters_raises rat model [:: Ndarray [:: 1; 2]%N [:: 1; 2]]
          isT isT (or_introl isT)).
Defined.

(** X12.  val, accuracy.  On an empty dataset val raises ZeroDivisionError.
    On a non-empty one it returns, and the accuracy is the number of samples
    whose greatest output (the first one on ties) is at their label, over the
    number of samples, whatever the batch size; it lies in [0, 1] and is 1
    exactly when every sample is classified as labelled. *)
Theorem X12_val_accuracy (F : realFieldType) (X : Type)
    (forward : state_dict F -> X -> num_classes.-tuple F)
    (cross_entropy : num_classes.-tuple F -> 'I_num_classes -> F)
    (model : state_dict F) (dataset : seq (sample X)) (batch_size : nat) :
  (dataset = [::] ->
     val forward cross_entropy model (dataset, batch_size) =
     Raise ZeroDivisionError) /\
  ((0 < size dataset)%N ->
     exists loss acc,
       [/\ val forward cross_entropy model (dataset, batch_size) =
             Ok (loss, acc),
           acc = (count (correct forward model) dataset)%:R
                 / (size dataset)%:R,
           0 <= acc <= 1
         & (acc == 1) = all (correct forward model) dataset]).
Proof.
rewrite valE; split=> [->//|n_gt0].
rewrite eqn0Ngt n_gt0 /=; do 2!eexists; split; [by reflexivity | by [] | |].
  by have [] := accuracy_range F (count_size (correct forward model) dataset) n_gt0.
have [_ ->] := accuracy_range F (count_size (correct forward model) dataset) n_gt0.
by rewrite all_count.
Qed.

(** X12 at two samples with equal outputs, classified as 0. *)
Lemma X12_val_accuracy_witness :
  let forward (m : state_dict rat) (x : unit) : num_classes.-tuple rat :=
    [tuple of nseq num_classes 0] in
  let cross_entropy (yhat : num_classes.-tuple rat) (y : 'I_num_classes) : rat :=
    1 in
  let dataset : seq (sample unit) := [:: (tt, ord0); (tt, ord0)] in
  exists loss acc,
    val forward cross_entropy [::] (dataset, BATCH_SIZE) = Ok (loss, acc) /\
    (acc == 1) = all (correct forward [::]) dataset.
Proof.
move=> forward cross_entropy dataset.
have [_ H] := @X12_val_accuracy rat unit forward cross_entropy [::] dataset
                BATCH_SIZE.
have [loss [acc [E _ _ all1]]] := H isT.
by exists loss, acc; split; [exact: E | exact: all1].
Defined.

(** X13.  val, loss.  With a batch size that divides the size of a non-empty
    dataset, the loss val returns is the sum of the losses of the samples
    over the batch size: the sum of the mean losses of the batches, not the
    mean loss of the dataset. *)
Theorem X13_val_loss (F : realFieldType) (X : Type)
    (forward : state_dict F -> X -> num_classes.-tuple F)
    (cross_entropy : num_classes.-tuple F -> 'I_num_classes -> F)
    (model : state_dict F) (dataset : seq (sample X)) (batch_size : nat) :
  (0 < size dataset)%N -> (0 < batch_size)%N ->
  (batch_size %| size dataset)%N ->
  exists loss acc,
    val forward cross_entropy model (dataset, batch_size) = Ok (loss, acc) /\
    loss = foldr (fun xy acc => cross_entropy (forward model xy.1) xy.2 + acc)
                 0 dataset / batch_size%:R.
Proof.
move=> n_gt0 b_gt0 dv; rewrite valE.
have -> : (size dataset == 0%N) = false by rewrite eqn0Ngt n_gt0.
do 2!eexists; split; first by reflexivity.
rewrite (@loss_full _ _ _ _ _ _ batch_size) ?flatten_batches //.
rewrite /batches /= -/(dvdn _ _) dv cats0.
have -> : all (fun s : seq (sample X) => size s == batch_size) =1
          (fun ss => all (pred1 batch_size) (shape ss)).
  by move=> ss; rewrite all_map.
rewrite reshapeKl ?all_pred1_nseq ?eqxx ?orbT // sumn_nseq mulnC.
by rewrite divnK.
Qed.

(** X13 at two samples in batches of one. *)
Lemma X13_val_loss_witness :
  let forward (m : state_dict rat) (x : unit) : num_classes.-tuple rat :=
    [tuple of nseq num_classes 0] in
  let cross_entropy (yhat : num_classes.-tuple rat) (y : 'I_num_classes) : rat :=
    1 in
  let dataset : seq (sample unit) := [:: (tt, ord0); (tt, ord0)] in
  exists loss acc,
    val forward cross_entropy [::] (dataset, 1%N) = Ok (loss, acc) /\
    loss = foldr (fun xy acc => cross_entropy (forward [::] xy.1) xy.2 + acc)
                 0 dataset / 1%:R.
Proof.
move=> forward cross_entropy dataset.
exact: (@X13_val_loss rat unit forward cross_entropy [::] dataset 1 isT isT isT).
Defined.

(** X14.  evaluate.  For a model with distinct keys and no 0-dimensional
    layer: when the arrays do not fit the layers evaluate raises RuntimeError,
    also on an empty dataset; when they fit and the dataset is empty it raises
    ZeroDivisionError; otherwise it returns the loss of val, the size of the
    dataset and metrics holding the accuracy under the key accuracy and the
    loss under the key losss (there is no key loss), both computed by val on
    the model that holds the arrays received. *)
Theorem X14_evaluate (F : realFieldType) (X : Type)
    (forward : state_dict F -> X -> num_classes.-tuple F)
    (cross_entropy : num_classes.-tuple F -> 'I_num_classes -> F)
    (model : state_dict F) (dataset : seq (sample X)) (batch_size : nat)
    (parameters : seq (ndarray F)) :
  uniq (dict_keys model) -> all (fun kv => shp kv.2 != [::]) model ->
  let fits :=
    (size model <= size parameters)%N &&
    ([seq shp kv.2 | kv <- model] ==
     [seq shp a | a <- take (size model) parameters]) in
  let model' := zip (dict_keys model) (take (size model) parameters) in
  let run := evaluate forward cross_entropy model (dataset, batch_size)
               parameters in
  [/\ ~~ fits -> run = Raise RuntimeError,
      fits -> dataset = [::] -> run = Raise ZeroDivisionError
    & fits -> (0 < size dataset)%N ->
      exists loss acc metrics,
        [/\ run = Ok (model', (loss, size dataset, metrics)),
            val forward cross_entropy model' (dataset, batch_size) =
              Ok (loss, acc),
            acc = (count (correct forward model') dataset)%:R
                  / (size dataset)%:R,
            dict_get metrics "accuracy"%string = Some acc /\
            dict_get metrics "losss"%string = Some loss
          & dict_get metrics "loss"%string = None]].
Proof.
move=> u n0 fits model' run; rewrite /run /evaluate set_parametersE // -/fits.
split=> [/negbTE -> //|-> -> //|-> n_gt0]; rewrite [Ok _ >>= _]/= valE.
have -> : (size dataset == 0%N) = false by rewrite eqn0Ngt n_gt0.
by do 3!eexists; split; [reflexivity | reflexivity | reflexivity | | ].
Qed.

(** X14 at a model of two layers, three arrays and two samples. *)
Lemma X14_evaluate_witness :
  let forward (m : state_dict rat) (x : unit) : num_classes.-tuple rat :=
    [tuple of nseq num_classes 0] in
  let cross_entropy (yhat : num_classes.-tuple rat) (y : 'I_num_classes) : rat :=
    1 in
  let model : state_dict rat :=
    [:: ("weight"%string, Ndarray [:: 1; 2]%N [:: 0; 0]);
        ("bias"%string, Ndarray [:: 1%N] [:: 0])] in
  let parameters : seq (ndarray rat) :=
    [:: Ndarray [:: 1; 2]%N [:: 1; 2]; Ndarray [:: 1%N] [:: 3];
        Ndarray [:: 1%N] [:: 4]] in
  let dataset : seq (sample unit) := [:: (tt, ord0); (tt, ord0)] in
  exists model' loss metrics,
    evaluate forward cross_entropy model (dataset, BATCH_SIZE) parameters =
    Ok (model', (loss, 2%N, metrics)).
Proof.
move=> forward cross_entropy model parameters dataset.
have [_ _ H] := @X14_evaluate rat unit forward cross_entropy model dataset
                  BATCH_SIZE parameters isT isT.
have [loss [acc [metrics [E _ _ _ _]]]] := H isT isT.
by do 3!eexists; exact: E.
Defined.

(** X15.  fit, errors.  fit reads config first: without the key
    local_epochs it raises KeyError, whatever the arrays.  With the key, for
    a model with distinct keys and no 0-dimensional layer, it raises
    RuntimeError when the arrays do not fit the layers, before any
    training. *)
Theorem X15_fit_errors (F : realFieldType) (X : Type)
    (train : state_dict F -> seq (sample X) * nat -> int -> state_dict F)
    (K : nat) (R1024 : 'M[F]_1024) (R512 : 'M[F]_512)
    (model : state_dict F) (trainloader : seq (sample X) * nat)
    (parameters : seq (ndarray F)) (config : dict int) :
  let fits :=
    (size model <= size parameters)%N &&
    ([seq shp kv.2 | kv <- model] ==
     [seq shp a | a <- take (size model) parameters]) in
  let run := fit train K R1024 R512 model trainloader parameters config in
  (dict_get config "local_epochs"%string = None -> run = Raise KeyError) /\
  (forall epochs, dict_get config "local_epochs"%string = Some epochs ->
     uniq (dict_keys model) -> all (fun kv => shp kv.2 != [::]) model ->
     ~~ fits -> run = Raise RuntimeError).
Proof.
move=> fits run; rewrite /run /fit /dict_getitem.
split=> [-> //|epochs -> u n0 nfits].
by rewrite [Ok _ >>= _]/= set_parametersE // -/fits (negbTE nfits).
Qed.

(** X15 at an empty config. *)
Lemma X15_fit_errors_witness :
  let train (m : state_dict rat) (l : seq (sample unit) * nat) (e : int) := m in
  fit train 64 1%:M 1%:M [::] ([::], BATCH_SIZE) [::] [::] = Raise KeyError.
Proof.
move=> train.
have [H _] := @X15_fit_errors rat unit train 64 1%:M 1%:M [::]
                ([::], BATCH_SIZE) [::] [::].
exact: (H (erefl _)).
Defined.






